(** * kidsapp: the word game of [js/app.js] (class [WordLearningApp])

    A shallow embedding of the puzzle generator, the word selection, the
    catalogue loader and the round state machine of the word game, with the
    properties they satisfy.

    Conventions of the embedding.
    - A JavaScript string is a [string]; the catalogue is plain ASCII text,
      one [ascii] per UTF-16 code unit.
    - A value that may be [undefined] is a [jsval]; a plain object is the
      list of its own entries, with [Object.prototype] behind it.
    - [Math.random] is an oracle: a list of raw draws, consumed from the
      front (an exhausted list keeps answering 0).  Every theorem quantifies
      over all oracles.
    - DOM, sound and speech calls are recorded in an event log.
    - Timers of the host event loop are explicit: live interval ids and the
      queue of pending one-shot callbacks. *)

From Stdlib Require Import Floats Uint63 ZArith Ascii String.
From stdpp Require Import gmap strings list sorting.

Open Scope string_scope.
Open Scope list_scope.

(** ** JavaScript values and string primitives *)

Inductive jsval :=
  | JUndefined
  | JStr (s : string).

Global Instance jsval_eq_dec : EqDecision jsval.
Proof. solve_decision. Defined.

Module Js.

(** [s.substring(0, n)] *)
Fixpoint take (n : nat) (s : string) : string :=
  match n, s with
  | S n', String c s' => String c (take n' s')
  | _, _ => EmptyString
  end.

(** [s.substring(n)] *)
Fixpoint drop (n : nat) (s : string) : string :=
  match n, s with
  | S n', String _ s' => drop n' s'
  | _, _ => s
  end.

(** [s.substring(a, b)] for [a <= b] *)
Definition substring (a b : nat) (s : string) : string :=
  take (b - a) (drop a s).

(** [s[i]]: a one-character string, or [undefined] out of range *)
Definition charAt (i : nat) (s : string) : jsval :=
  match String.get i s with
  | Some c => JStr (String c EmptyString)
  | None => JUndefined
  end.

(** [s.indexOf(sub)]; [None] stands for the result [-1] *)
Fixpoint indexOf (sub s : string) : option nat :=
  if String.prefix sub s then Some 0
  else match s with
       | EmptyString => None
       | String _ s' => S <$> indexOf sub s'
       end.

(** [s.repeat(n)] *)
Fixpoint repeat (s : string) (n : nat) : string :=
  match n with
  | 0 => EmptyString
  | S n' => s +:+ repeat s n'
  end.

Definition upper_ascii (c : ascii) : ascii :=
  let n := nat_of_ascii c in
  if (97 <=? n)%nat && (n <=? 122)%nat then ascii_of_nat (n - 32) else c.

(** [s.toUpperCase()] on ASCII text *)
Fixpoint toUpperCase (s : string) : string :=
  match s with
  | EmptyString => EmptyString
  | String c s' => String (upper_ascii c) (toUpperCase s')
  end.

(** [String.fromCharCode(n)] *)
Definition fromCharCode (n : nat) : string := String (ascii_of_nat n) EmptyString.

(** [`${v}`]: string interpolation of a value *)
Definition toString (v : jsval) : string :=
  match v with
  | JUndefined => "undefined"
  | JStr s => s
  end.

End Js.

(** ** The random oracle *)

Definition rng := list nat.

Definition draw (g : rng) : nat * rng :=
  match g with
  | [] => (0, [])
  | r :: g' => (r, g')
  end.

(** [Math.floor(Math.random() * n)]: the product lies in [[0, n)], so the
    floor is one of [0 .. n-1]; the raw draw selects which. *)
Definition randomIndex (n : nat) (g : rng) : nat * rng :=
  let '(r, g') := draw g in (r `mod` n, g').

(** [Math.random() > 0.5]: the raw draw decides the comparison. *)
Definition randomAboveHalf (g : rng) : bool * rng :=
  let '(r, g') := draw g in (Nat.odd r, g').

(** ** Outcomes of fallible code *)

Inductive JsError := TypeError.

Inductive outcome (A : Type) :=
  | Ok (a : A)
  | Throw (e : JsError)
  | OutOfFuel.
Arguments Ok {A} a.
Arguments Throw {A} e.
Arguments OutOfFuel {A}.

(** ** [shuffleArray] on the contents of an array *)

Section Shuffle.
Context {A : Type}.

(** [[a[i], a[j]] = [a[j], a[i]]]: the right-hand side is read first, then
    [a[i]] and [a[j]] are written in that order.  [shuffleLoop] only calls
    it with both indices below the length. *)
Definition swap (i j : nat) (l : list A) : list A :=
  match l !! i, l !! j with
  | Some x, Some y => <[j:=x]> (<[i:=y]> l)
  | _, _ => l
  end.

(** The loop [for (let i = n; i > 0; i--)] of [shuffleArray]. *)
Fixpoint shuffleLoop (i : nat) (l : list A) (g : rng) : list A * rng :=
  match i with
  | 0 => (l, g)
  | S i' =>
      let '(j, g1) := randomIndex (i + 1) g in
      shuffleLoop i' (swap i j l) g1
  end.

Definition shuffleArray (array : list A) (g : rng) : list A * rng :=
  let shuffled := array in
  shuffleLoop (length shuffled - 1) shuffled g.

End Shuffle.

(** ** Catalogue records and the game state *)

Record WordRecord := {
  word : string;
  phonics : string;
  category : string
}.

Global Instance WordRecord_eq_dec : EqDecision WordRecord.
Proof. solve_decision. Defined.

(** [this.gameState] as built by [initializeGame]; [displayWord] and
    [letterOptions] are the two properties [generateWordPuzzle] adds
    ([letterOptions] is [[]] while the property is still absent). *)
Record GameState := {
  currentQuestion : nat;
  score : nat;
  totalQuestions : nat;
  timeLeft : Z;
  timer : option nat;
  gameWords : list WordRecord;
  currentWord : option WordRecord;
  correctAnswer : jsval;
  isAnswered : bool;
  displayWord : jsval;
  letterOptions : list jsval
}.

(** ** The puzzle generator *)

(** The object literal [similar] of [generateSimilarLetters], in source
    order. *)
Definition similar : list (string * list string) :=
  [ ("A", ["E"; "I"; "O"]);
    ("B", ["D"; "P"; "R"]);
    ("C", ["G"; "O"; "Q"]);
    ("D", ["B"; "O"; "P"]);
    ("E", ["A"; "F"; "I"]);
    ("F", ["E"; "P"; "T"]);
    ("G", ["C"; "O"; "Q"]);
    ("H", ["N"; "R"; "K"]);
    ("I", ["A"; "E"; "L"]);
    ("J", ["I"; "L"; "T"]);
    ("K", ["H"; "R"; "X"]);
    ("L", ["I"; "J"; "T"]);
    ("M", ["N"; "H"; "W"]);
    ("N", ["M"; "H"; "R"]);
    ("O", ["C"; "G"; "Q"]);
    ("P", ["B"; "D"; "F"]);
    ("Q", ["C"; "G"; "O"]);
    ("R", ["B"; "H"; "K"]);
    ("S", ["C"; "G"; "Z"]);
    ("T", ["F"; "J"; "L"]);
    ("U", ["V"; "W"; "Y"]);
    ("V", ["U"; "W"; "Y"]);
    ("W", ["M"; "U"; "V"]);
    ("X", ["K"; "Y"; "Z"]);
    ("Y", ["U"; "V"; "X"]);
    ("Z", ["S"; "X"; "Y"]);
    ("SH", ["CH"; "TH"; "PH"]);
    ("CH", ["SH"; "TH"; "PH"]);
    ("TH", ["SH"; "CH"; "PH"]);
    ("PH", ["SH"; "CH"; "TH"]);
    ("WH", ["SH"; "CH"; "TH"]);
    ("ST", ["SP"; "SK"; "SM"]);
    ("SP", ["ST"; "SK"; "SM"]);
    ("SK", ["ST"; "SP"; "SM"]);
    ("SM", ["ST"; "SP"; "SK"]) ].

(** What a plain object inherits from [Object.prototype]: the name of each
    member and the [length] it reports (the number of parameters of a
    function; [__proto__] is an object without a [length], which compares
    with 0 like 0 does). *)
Definition objectPrototype : list (string * nat) :=
  [ ("constructor", 1); ("__defineGetter__", 2); ("__defineSetter__", 2);
    ("hasOwnProperty", 1); ("__lookupGetter__", 1); ("__lookupSetter__", 1);
    ("isPrototypeOf", 1); ("propertyIsEnumerable", 1); ("toString", 0);
    ("valueOf", 0); ("__proto__", 0); ("toLocaleString", 0) ]%nat.

(** The first entry of [obj] under [key]. *)
Fixpoint property {V : Type} (key : string) (obj : list (string * V))
  : option V :=
  match obj with
  | [] => None
  | (k, v) :: obj' => if decide (k = key) then Some v else property key obj'
  end.

(** What [generateSimilarLetters] can return: an array of letters, or a
    member inherited from [Object.prototype], which has a [length] but no
    [splice]. *)
Inductive wrongOptionsVal :=
  | Letters (letters : list jsval)
  | Inherited (len : nat).

(** [similar[correctAnswer] || ['X', 'Y', 'Z']]: the own keys of the table
    first, then the prototype; arrays, functions and objects are all
    truthy, so the default is used only when both lookups find nothing. *)
Definition generateSimilarLetters (correctAnswer : jsval) : wrongOptionsVal :=
  let key := Js.toString correctAnswer in
  match property key similar with
  | Some letters => Letters (JStr <$> letters)
  | None =>
      match property key objectPrototype with
      | Some len => Inherited len
      | None => Letters [JStr "X"; JStr "Y"; JStr "Z"]
      end
  end.

(** [options.includes(x)] *)
Definition includes (x : jsval) (options : list jsval) : bool :=
  bool_decide (x ∈ options).

(** [wrongOptions.splice(i, 1)[0]] and what is left of [wrongOptions] *)
Definition spliceOne (i : nat) (wrongOptions : list jsval) : jsval * list jsval :=
  (default JUndefined (wrongOptions !! i), delete i wrongOptions).

(** [options.push(x)] unless [options.includes(x)] *)
Definition pushNew (x : jsval) (options : list jsval) : list jsval :=
  if includes x options then options else options ++ [x].

(** The loop [while (options.length < 4 && wrongOptions.length > 0)].  Each
    iteration removes one candidate, so [length wrongOptions] iterations
    are always enough; [n] counts them down. *)
Fixpoint drawLoop (n : nat) (options wrongOptions : list jsval) (g : rng)
  : list jsval * list jsval * rng :=
  match n with
  | 0 => (options, wrongOptions, g)
  | S n' =>
      if (length options <? 4)%nat && (0 <? length wrongOptions)%nat then
        let '(i, g1) := randomIndex (length wrongOptions) g in
        let '(randomWrong, rest) := spliceOne i wrongOptions in
        drawLoop n' (pushNew randomWrong options) rest g1
      else (options, wrongOptions, g)
  end.

(** The loop [while (options.length < 4)] that fills up with random
    capital letters.  Nothing bounds its iterations, so it runs on fuel. *)
Fixpoint fillLoop (fuel : nat) (options : list jsval) (g : rng)
  : outcome (list jsval * rng) :=
  if (length options <? 4)%nat then
    match fuel with
    | 0 => OutOfFuel
    | S fuel' =>
        let '(k, g1) := randomIndex 26 g in
        let randomLetter := JStr (Js.fromCharCode (65 + k)) in
        fillLoop fuel' (pushNew randomLetter options) g1
    end
  else Ok (options, g).

(** The three steps of [generateLetterOptions] after the candidates are
    known: fill up, shuffle, return. *)
Definition fillAndShuffle (fuel : nat) (options : list jsval) (g : rng)
  : outcome (list jsval * rng) :=
  match fillLoop fuel options g with
  | Ok (options', g') => Ok (shuffleArray options' g')
  | Throw e => Throw e
  | OutOfFuel => OutOfFuel
  end.

(** [generateLetterOptions].  With an inherited member for [wrongOptions]
    the first loop either is skipped (its [length] is not above 0) or
    calls [wrongOptions.splice], which is not a function. *)
Definition generateLetterOptions (fuel : nat) (correctAnswer : jsval) (g : rng)
  : outcome (list jsval * rng) :=
  let options := [correctAnswer] in
  match generateSimilarLetters correctAnswer with
  | Letters wrongOptions =>
      let '(options1, _, g1) :=
        drawLoop (length wrongOptions) options wrongOptions g in
      fillAndShuffle fuel options1 g1
  | Inherited len =>
      if (0 <? len)%nat then Throw TypeError
      else fillAndShuffle fuel options g
  end.

Definition digraphs : list string := ["SH"; "CH"; "TH"; "PH"; "WH"].
Definition blends : list string :=
  ["ST"; "SP"; "SK"; "SM"; "SN"; "SL"; "SW"; "SC"].

(** [for (const p of patterns) { index = word.indexOf(p); if (index !== -1)
    { ...; break; } }]: the first pattern of the list that occurs in the
    word, with the index [indexOf] reports for it. *)
Fixpoint findPattern (patterns : list string) (w : string)
  : option (string * nat) :=
  match patterns with
  | [] => None
  | p :: ps =>
      match Js.indexOf p w with
      | Some index => Some (p, index)
      | None => findPattern ps w
      end
  end.

(** [word.substring(0, index) + '_'.repeat(n) + word.substring(index + n)] *)
Definition maskAt (index n : nat) (w : string) : string :=
  Js.substring 0 index w +:+ Js.repeat "_" n +:+ Js.drop (index + n) w.

(** [word.substring(0, position) + '_' + word.substring(position + 1)] *)
Definition maskLetter (position : nat) (w : string) : string :=
  Js.substring 0 position w +:+ "_" +:+ Js.drop (position + 1) w.

(** The body of [generateWordPuzzle] between reading the word and storing
    the result: [(missingPart, displayWord)] for the upper-cased word [w]. *)
Definition maskWord (w : string) (g : rng) : jsval * string * rng :=
  if (String.length w <=? 3)%nat then
    let '(above, g1) := randomAboveHalf g in
    let position := if above then 1 else 2 in
    (Js.charAt position w, maskLetter position w, g1)
  else
    match findPattern digraphs w with
    | Some (digraph, index) =>
        (JStr digraph, maskAt index (String.length digraph) w, g)
    | None =>
        match findPattern blends w with
        | Some (blend, index) =>
            (JStr blend, maskAt index (String.length blend) w, g)
        | None =>
            let '(position, g1) := randomIndex (String.length w) g in
            (Js.charAt position w, maskLetter position w, g1)
        end
    end.

(** [generateWordPuzzle]: reading [this.gameState.currentWord.word] throws
    a [TypeError] when there is no current word. *)
Definition generateWordPuzzle (fuel : nat) (gs : GameState) (g : rng)
  : outcome (GameState * rng) :=
  match currentWord gs with
  | None => Throw TypeError
  | Some cw =>
      let w := Js.toUpperCase (word cw) in
      let '(missingPart, display, g1) := maskWord w g in
      match generateLetterOptions fuel missingPart g1 with
      | Ok (options, g2) =>
          Ok ({| currentQuestion := currentQuestion gs;
                 score := score gs;
                 totalQuestions := totalQuestions gs;
                 timeLeft := timeLeft gs;
                 timer := timer gs;
                 gameWords := gameWords gs;
                 currentWord := currentWord gs;
                 correctAnswer := missingPart;
                 isAnswered := isAnswered gs;
                 displayWord := JStr display;
                 letterOptions := options |}, g2)
      | Throw e => Throw e
      | OutOfFuel => OutOfFuel
      end
  end.


(** ** Selecting the words of a game *)

(** [word.category === 'simple' && word.word.length <= 3] *)
Definition isEasy (w : WordRecord) : bool :=
  bool_decide (category w = "simple") && (String.length (word w) <=? 3)%nat.

(** [['digraph', 'blend', 'trigraph', 'vowel_team'].includes(word.category)] *)
Definition isHard (w : WordRecord) : bool :=
  bool_decide (category w ∈ ["digraph"; "blend"; "trigraph"; "vowel_team"]).

(** [selectGameWords]: the new value of [gameState.gameWords]. *)
Definition selectGameWords (catalogue : list WordRecord) (g : rng)
  : list WordRecord * rng :=
  let easyWords := filter isEasy catalogue in
  let hardWords := filter isHard catalogue in
  let '(shuffledEasy, g1) := shuffleArray easyWords g in
  let selectedEasy := take 5 shuffledEasy in
  let '(shuffledHard, g2) := shuffleArray hardWords g1 in
  let selectedHard := take 5 shuffledHard in
  shuffleArray (selectedEasy ++ selectedHard)%list g2.

(** ** [shuffleArray] on a store of arrays

    Arrays are objects: a variable holds a reference into the store, and
    [shuffled[i] = ...] writes through it.  This is [shuffleArray] with the
    copy [[...array]] allocated at a fresh reference and every swap done in
    place there. *)

Section ShuffleStore.
Context {A : Type}.

Definition allocArray (l : list A) (h : gmap nat (list A))
  : nat * gmap nat (list A) :=
  let b := fresh (dom h) in (b, <[b:=l]> h).

Fixpoint shuffleLoopAt (b i : nat) (h : gmap nat (list A)) (g : rng)
  : gmap nat (list A) * rng :=
  match i with
  | 0 => (h, g)
  | S i' =>
      let '(j, g1) := randomIndex (i + 1) g in
      shuffleLoopAt b i' (alter (swap i j) b h) g1
  end.

(** [None]: the argument is not an array of the store. *)
Definition shuffleArrayAt (array : nat) (h : gmap nat (list A)) (g : rng)
  : option (nat * gmap nat (list A) * rng) :=
  match h !! array with
  | None => None
  | Some l =>
      let '(shuffled, h1) := allocArray l h in
      let '(h2, g') := shuffleLoopAt shuffled (length l - 1) h1 g in
      Some (shuffled, h2, g')
  end.

End ShuffleStore.

(** ** The end-of-game message *)

Inductive MessageTier :=
  | TierOutstanding   (* 'Outstanding! You're a word wizard!' *)
  | TierGreatJob      (* 'Great job! Keep up the excellent work!' *)
  | TierGoodEffort    (* 'Good effort! Practice makes perfect!' *)
  | TierKeepTrying.   (* 'Keep trying! You'll get better with practice!' *)

Global Instance MessageTier_eq_dec : EqDecision MessageTier.
Proof. solve_decision. Defined.

(** A small non-negative integer as a JavaScript number (binary64). *)
Definition number (n : nat) : float :=
  PrimFloat.of_uint63 (Uint63.of_Z (Z.of_nat n)).

(** [(score / totalQuestions) * 100], in binary64 arithmetic *)
Definition percentage (score total : nat) : float :=
  PrimFloat.mul (PrimFloat.div (number score) (number total)) (number 100).

Definition resultsMessage (score total : nat) : MessageTier :=
  let p := percentage score total in
  if PrimFloat.leb (number 90) p then TierOutstanding
  else if PrimFloat.leb (number 70) p then TierGreatJob
  else if PrimFloat.leb (number 50) p then TierGoodEffort
  else TierKeepTrying.

(** The four bands on the exact percentage [100 * score / total], compared
    without division. *)
Definition bandOf (score total : nat) : MessageTier :=
  if (90 * total <=? 100 * score)%nat then TierOutstanding
  else if (70 * total <=? 100 * score)%nat then TierGreatJob
  else if (50 * total <=? 100 * score)%nat then TierGoodEffort
  else TierKeepTrying.

(** ** The application state and its event loop *)

Inductive Message :=
  | MsgCorrect                    (* 'Correct! Well done!' *)
  | MsgWrong (answer : jsval)     (* `Wrong! Correct answer: ${answer}` *)
  | MsgTimeUp (answer : jsval).   (* `Time's up! Correct answer: ${answer}` *)

Global Instance Message_eq_dec : EqDecision Message.
Proof. solve_decision. Defined.

Inductive Sound := SoundCorrect | SoundWrong.

Global Instance Sound_eq_dec : EqDecision Sound.
Proof. solve_decision. Defined.

(** What the page shows, plays or says. *)
Inductive Event :=
  | EvFeedback (isCorrect : bool) (message : Message)
  | EvSound (type : Sound)
  | EvTimerText (t : Z)
  | EvRoundUI (display : jsval) (options : list jsval) (score total : nat)
  | EvButtons (letter : string) (isCorrect : bool)
  | EvSpeak (w : WordRecord)
  | EvResults (score total : nat) (tier : MessageTier)
  | EvError.

Global Instance Event_eq_dec : EqDecision Event.
Proof. solve_decision. Defined.

(** The only callback the game passes to [setTimeout]. *)
Inductive Callback := CbNextQuestion.

Record App := {
  words : list WordRecord;
  filteredWords : list WordRecord;
  wordLookup : gmap string WordRecord;
  gameState : option GameState;       (* [None] is [null] *)
  modalOpen : bool;                   (* [modal.style.display === 'flex'] *)
  audioContext : bool;                (* whether an AudioContext exists *)
  random : rng;
  nextTimerId : nat;
  intervals : list nat;               (* ids of the live intervals *)
  timeouts : list (nat * Callback);   (* pending [setTimeout]s: delay, callback *)
  log : list Event
}.

(** How a handler ends: normally, by an uncaught exception (the state
    reached so far stays), or without fuel in the filling loop. *)
Inductive result :=
  | Done (app : App)
  | Raised (e : JsError) (app : App)
  | NoFuel.

Definition andThen (r : result) (k : App → result) : result :=
  match r with
  | Done app => k app
  | Raised e app => Raised e app
  | NoFuel => NoFuel
  end.

Definition setCatalogue (ws fs : list WordRecord) (m : gmap string WordRecord)
  (app : App) : App :=
  {| words := ws; filteredWords := fs; wordLookup := m;
     gameState := gameState app; modalOpen := modalOpen app;
     audioContext := audioContext app; random := random app;
     nextTimerId := nextTimerId app; intervals := intervals app;
     timeouts := timeouts app; log := log app |}.

Definition setGame (gs : option GameState) (app : App) : App :=
  {| words := words app; filteredWords := filteredWords app;
     wordLookup := wordLookup app;
     gameState := gs; modalOpen := modalOpen app;
     audioContext := audioContext app; random := random app;
     nextTimerId := nextTimerId app; intervals := intervals app;
     timeouts := timeouts app; log := log app |}.

Definition setModal (b : bool) (app : App) : App :=
  {| words := words app; filteredWords := filteredWords app;
     wordLookup := wordLookup app;
     gameState := gameState app; modalOpen := b;
     audioContext := audioContext app; random := random app;
     nextTimerId := nextTimerId app; intervals := intervals app;
     timeouts := timeouts app; log := log app |}.

Definition setRandom (g : rng) (app : App) : App :=
  {| words := words app; filteredWords := filteredWords app;
     wordLookup := wordLookup app;
     gameState := gameState app; modalOpen := modalOpen app;
     audioContext := audioContext app; random := g;
     nextTimerId := nextTimerId app; intervals := intervals app;
     timeouts := timeouts app; log := log app |}.

Definition setTimers (next : nat) (ivs : list nat) (tos : list (nat * Callback))
  (app : App) : App :=
  {| words := words app; filteredWords := filteredWords app;
     wordLookup := wordLookup app;
     gameState := gameState app; modalOpen := modalOpen app;
     audioContext := audioContext app; random := random app;
     nextTimerId := next; intervals := ivs;
     timeouts := tos; log := log app |}.

Definition emit (e : Event) (app : App) : App :=
  {| words := words app; filteredWords := filteredWords app;
     wordLookup := wordLookup app;
     gameState := gameState app; modalOpen := modalOpen app;
     audioContext := audioContext app; random := random app;
     nextTimerId := nextTimerId app; intervals := intervals app;
     timeouts := timeouts app; log := (log app ++ [e])%list |}.

(** [setInterval(f, 1000)]: a fresh positive id, now live. *)
Definition setInterval (app : App) : nat * App :=
  let id := S (nextTimerId app) in
  (id, setTimers id (intervals app ++ [id])%list (timeouts app) app).

(** [clearInterval(t)]; [clearInterval(null)] does nothing. *)
Definition clearInterval (t : option nat) (app : App) : App :=
  match t with
  | None => app
  | Some id =>
      setTimers (nextTimerId app)
        (filter (λ i, i ≠ id) (intervals app))
        (timeouts app) app
  end.

(** [setTimeout(cb, ms)] *)
Definition setTimeout (cb : Callback) (ms : nat) (app : App) : App :=
  setTimers (nextTimerId app) (intervals app)
    (timeouts app ++ [(ms, cb)])%list app.

(** Updates of single properties of [this.gameState]. *)
Definition withRound (cw : option WordRecord) (answered : bool) (t : Z)
  (gs : GameState) : GameState :=
  {| currentQuestion := currentQuestion gs; score := score gs;
     totalQuestions := totalQuestions gs; timeLeft := t; timer := timer gs;
     gameWords := gameWords gs; currentWord := cw;
     correctAnswer := correctAnswer gs; isAnswered := answered;
     displayWord := displayWord gs; letterOptions := letterOptions gs |}.

Definition withProgress (q s : nat) (gs : GameState) : GameState :=
  {| currentQuestion := q; score := s;
     totalQuestions := totalQuestions gs; timeLeft := timeLeft gs;
     timer := timer gs; gameWords := gameWords gs;
     currentWord := currentWord gs; correctAnswer := correctAnswer gs;
     isAnswered := isAnswered gs; displayWord := displayWord gs;
     letterOptions := letterOptions gs |}.

Definition withWords (ws : list WordRecord) (gs : GameState) : GameState :=
  {| currentQuestion := currentQuestion gs; score := score gs;
     totalQuestions := totalQuestions gs; timeLeft := timeLeft gs;
     timer := timer gs; gameWords := ws;
     currentWord := currentWord gs; correctAnswer := correctAnswer gs;
     isAnswered := isAnswered gs; displayWord := displayWord gs;
     letterOptions := letterOptions gs |}.

Definition withTimer (t : option nat) (gs : GameState) : GameState :=
  {| currentQuestion := currentQuestion gs; score := score gs;
     totalQuestions := totalQuestions gs; timeLeft := timeLeft gs;
     timer := t; gameWords := gameWords gs;
     currentWord := currentWord gs; correctAnswer := correctAnswer gs;
     isAnswered := isAnswered gs; displayWord := displayWord gs;
     letterOptions := letterOptions gs |}.

Definition showFeedback (isCorrect : bool) (message : Message) (app : App) : App :=
  emit (EvFeedback isCorrect message) app.

(** [playSound]: silent without an audio context. *)
Definition playSound (type : Sound) (app : App) : App :=
  if audioContext app then emit (EvSound type) app else app.

Definition speakWord (w : WordRecord) (app : App) : App := emit (EvSpeak w) app.

(** ** Loading the catalogue *)

(** What [fetch] and [response.json()] deliver. *)
Inductive FetchResult :=
  | FetchFailed                           (* rejected, [!response.ok], bad JSON *)
  | FetchArray (data : list WordRecord).  (* the parsed array of records *)

(** [this.words.forEach(w => { if (w && w.word) this.wordLookup.set(w.word, w); })]:
    a record with an empty text is skipped, a later record replaces an
    earlier one with the same text. *)
Definition buildLookup (ws : list WordRecord) (m : gmap string WordRecord)
  : gmap string WordRecord :=
  foldl (λ acc w, if decide (word w = EmptyString) then acc
                  else <[word w:=w]> acc) m ws.

(** [loadWords]: the [catch] branch empties [words] and [filteredWords] and
    reports the error; it does not touch [wordLookup]. *)
Definition loadWords (r : FetchResult) (app : App) : App :=
  match r with
  | FetchFailed => emit EvError (setCatalogue [] [] (wordLookup app) app)
  | FetchArray data =>
      let m := buildLookup data ∅ in
      if (length data =? 0)%nat then emit EvError (setCatalogue [] [] m app)
      else setCatalogue data data m app
  end.

(** ** The game *)

(** [initializeGame]: a fresh [gameState], then [selectGameWords]. *)
Definition initializeGame (app : App) : App :=
  let gs := {| currentQuestion := 0; score := 0; totalQuestions := 10;
               timeLeft := 10; timer := None; gameWords := [];
               currentWord := None; correctAnswer := JStr EmptyString;
               isAnswered := false; displayWord := JUndefined;
               letterOptions := [] |} in
  let '(selected, g) := selectGameWords (words app) (random app) in
  setRandom g (setGame (Some (withWords selected gs)) app).

Definition updateGameUI (app : App) : result :=
  match gameState app with
  | None => Raised TypeError app
  | Some gs =>
      Done (emit (EvRoundUI (displayWord gs) (letterOptions gs)
                            (score gs) (totalQuestions gs))
              (emit (EvTimerText (timeLeft gs)) app))
  end.

(** [timeUp]: the first writer of [isAnswered] wins. *)
Definition timeUp (app : App) : result :=
  match gameState app with
  | None => Raised TypeError app
  | Some gs =>
      if isAnswered gs then Done app
      else
        let gs1 := withRound (currentWord gs) true (timeLeft gs) gs in
        let app1 := setGame (Some gs1) app in
        let app2 := showFeedback false (MsgTimeUp (correctAnswer gs1)) app1 in
        Done (setTimeout CbNextQuestion 2000 app2)
  end.

(** The callback [startTimer] hands to [setInterval]. *)
Definition countdown (app : App) : result :=
  match gameState app with
  | None => Raised TypeError app
  | Some gs =>
      let gs1 := withRound (currentWord gs) (isAnswered gs) (timeLeft gs - 1) gs in
      let app1 := emit (EvTimerText (timeLeft gs1)) (setGame (Some gs1) app) in
      if (timeLeft gs1 <=? 0)%Z then timeUp app1 else Done app1
  end.

Definition startTimer (app : App) : result :=
  match gameState app with
  | None => Raised TypeError app
  | Some gs =>
      let app1 := match timer gs with
                  | Some id => clearInterval (Some id) app
                  | None => app
                  end in
      let '(id, app2) := setInterval app1 in
      Done (setGame (Some (withTimer (Some id) gs)) app2)
  end.

Definition speakCurrentGameWord (app : App) : result :=
  match gameState app with
  | None => Raised TypeError app
  | Some gs =>
      match currentWord gs with
      | Some w => Done (speakWord w app)
      | None => Done app
      end
  end.

Definition endGame (app : App) : result :=
  match gameState app with
  | None => Raised TypeError app
  | Some gs =>
      let app1 := clearInterval (timer gs) app in
      Done (emit (EvResults (score gs) (totalQuestions gs)
                    (resultsMessage (score gs) (totalQuestions gs))) app1)
  end.

Definition startNewGameRound (fuel : nat) (app : App) : result :=
  match gameState app with
  | None => Raised TypeError app
  | Some gs =>
      if (totalQuestions gs <=? currentQuestion gs)%nat then endGame app
      else
        let gs1 := withRound (gameWords gs !! currentQuestion gs) false 10 gs in
        match generateWordPuzzle fuel gs1 (random app) with
        | Throw e => Raised e (setGame (Some gs1) app)
        | OutOfFuel => NoFuel
        | Ok (gs2, g) =>
            andThen (updateGameUI (setRandom g (setGame (Some gs2) app)))
              (λ app1, andThen (startTimer app1) speakCurrentGameWord)
        end
  end.

Definition nextQuestion (fuel : nat) (app : App) : result :=
  match gameState app with
  | None => Raised TypeError app
  | Some gs =>
      startNewGameRound fuel
        (setGame (Some (withProgress (currentQuestion gs + 1) (score gs) gs)) app)
  end.

Definition selectLetter (letter : string) (app : App) : result :=
  match gameState app with
  | None => Raised TypeError app
  | Some gs =>
      if isAnswered gs then Done app
      else
        let gs1 := withRound (currentWord gs) true (timeLeft gs) gs in
        let app1 := clearInterval (timer gs1) (setGame (Some gs1) app) in
        let isCorrect := bool_decide (JStr letter = correctAnswer gs1) in
        let app2 :=
          if isCorrect then
            showFeedback true MsgCorrect
              (playSound SoundCorrect
                 (setGame (Some (withProgress (currentQuestion gs1)
                                              (score gs1 + 1) gs1)) app1))
          else
            showFeedback false (MsgWrong (correctAnswer gs1))
              (playSound SoundWrong app1) in
        Done (setTimeout CbNextQuestion 2500 (emit (EvButtons letter isCorrect) app2))
  end.

(** [startWordGame]: refused while a game is on screen. *)
Definition startWordGame (fuel : nat) (app : App) : result :=
  if bool_decide (gameState app ≠ None) && modalOpen app then Done app
  else startNewGameRound fuel (setModal true (initializeGame app)).

Definition closeGame (app : App) : App :=
  let app1 := setModal false app in
  let app2 := match gameState app1 with
              | Some gs => match timer gs with
                           | Some id => clearInterval (Some id) app1
                           | None => app1
                           end
              | None => app1
              end in
  setGame None app2.

(** *** Steps of the host event loop *)

(** The interval [id] fires; a cleared interval never does. *)
Definition tick (id : nat) (app : App) : result :=
  if bool_decide (id ∈ intervals app) then countdown app else Done app.

(** [n] firings of the interval [id] in a row. *)
Fixpoint ticks (n id : nat) (app : App) : result :=
  match n with
  | 0 => Done app
  | S n' => andThen (tick id app) (ticks n' id)
  end.

(** The oldest pending [setTimeout] callback runs and leaves the queue. *)
Definition fireTimeout (fuel : nat) (app : App) : result :=
  match timeouts app with
  | [] => Done app
  | (_, CbNextQuestion) :: rest =>
      nextQuestion fuel (setTimers (nextTimerId app) (intervals app) rest app)
  end.

(** The state a handler leaves behind, however it ended. *)
Definition stateOf (r : result) : option App :=
  match r with
  | Done app | Raised _ app => Some app
  | NoFuel => None
  end.

(** The feedback events of a log, in order. *)
Definition isFeedback (e : Event) : bool :=
  match e with EvFeedback _ _ => true | _ => false end.

Definition feedbacks (l : list Event) : list Event := filter isFeedback l.

(** The state the constructor leaves, with the oracle [g]. *)
Definition newApp (g : rng) : App :=
  {| words := []; filteredWords := []; wordLookup := ∅;
     gameState := None; modalOpen := false; audioContext := true;
     random := g; nextTimerId := 0; intervals := []; timeouts := [];
     log := [] |}.

(** ** Vocabulary of the statements *)

(** The pattern [d] occurs in [w] at index [i]. *)
Definition occursAt (d : string) (i : nat) (w : string) : Prop :=
  (i ≤ String.length w)%nat ∧ String.prefix d (Js.drop i w) = true.

(** The display with the [n] characters from index [i] replaced by
    placeholders, one each, and all other characters kept. *)
Definition masked (i n : nat) (w : string) : string :=
  Js.take i w +:+ Js.repeat "_" n +:+ Js.drop (i + n) w.

(** The digraph rule read as "the leftmost occurrence of any digraph in
    the word is masked": the masked occurrence starts no later than any
    occurrence of any digraph. *)
Definition masksLeftmostDigraph (fuel : nat) (gs : GameState) (g : rng) : Prop :=
  ∀ cw, currentWord gs = Some cw →
    let w := Js.toUpperCase (word cw) in
    (3 < String.length w)%nat →
    (∃ d i, d ∈ digraphs ∧ occursAt d i w) →
    ∃ d i gs' g',
      d ∈ digraphs ∧ occursAt d i w ∧
      (∀ d' j, d' ∈ digraphs → occursAt d' j w → (i ≤ j)%nat) ∧
      generateWordPuzzle fuel gs g = Ok (gs', g') ∧
      correctAnswer gs' = JStr d ∧
      displayWord gs' = JStr (masked i 2 w).

(** A game state whose current word is [cw], as [startNewGameRound] sets
    it up before it calls [generateWordPuzzle]. *)
Definition roundOn (cw : WordRecord) : GameState :=
  {| currentQuestion := 0; score := 0; totalQuestions := 10;
     timeLeft := 10; timer := None; gameWords := [cw];
     currentWord := Some cw; correctAnswer := JStr EmptyString;
     isAnswered := false; displayWord := JUndefined;
     letterOptions := [] |}.

Definition simpleWord (text : string) : WordRecord :=
  {| word := text; phonics := EmptyString; category := "simple" |}.

(** The empty-text rule read as "an empty text makes the generator fail". *)
Definition failsOnEmptyText (fuel : nat) (gs : GameState) (g : rng) : Prop :=
  ∀ cw, currentWord gs = Some cw → word cw = EmptyString →
    ∃ e, generateWordPuzzle fuel gs g = Throw e.

(** The lookup table and the word sequence hold the same records. *)
Definition lookupAgrees (app : App) : Prop :=
  (∀ k r, wordLookup app !! k = Some r → r ∈ words app) ∧
  (∀ r, r ∈ words app → ∃ k, wordLookup app !! k = Some r).

(** A round in progress on interval [id]: question [q], score [s], answer
    [c], feedback history [F], [t] seconds left, nothing answered and
    nothing scheduled. *)
Definition counting (id q s : nat) (c : jsval) (F : list Event) (t : Z)
  (app : App) : Prop :=
  ∃ gs, gameState app = Some gs ∧ isAnswered gs = false ∧ timeLeft gs = t ∧
        currentQuestion gs = q ∧ score gs = s ∧ correctAnswer gs = c ∧
        id ∈ intervals app ∧ timeouts app = [] ∧ feedbacks (log app) = F.

(** The same round after the time ran out, [k] ticks ago: one more feedback
    event, the time-up one, and one pending callback. *)
Definition timedOut (id q s : nat) (c : jsval) (F : list Event) (k : nat)
  (app : App) : Prop :=
  ∃ gs, gameState app = Some gs ∧ isAnswered gs = true ∧
        timeLeft gs = (- Z.of_nat k)%Z ∧
        currentQuestion gs = q ∧ score gs = s ∧ correctAnswer gs = c ∧
        id ∈ intervals app ∧ timeouts app = [(2000%nat, CbNextQuestion)] ∧
        feedbacks (log app) = F ++ [EvFeedback false (MsgTimeUp c)].

(** ** Runs of the event loop *)

(** What can happen to the page while the game is on it. *)
Inductive Input :=
  | InStart                      (* the game button, or "play again" *)
  | InLetter (letter : string)   (* a letter button *)
  | InListen                     (* "listen again" *)
  | InClose                      (* a close button, or Escape *)
  | InTick (id : nat)            (* the interval [id] fires *)
  | InTimeout.                   (* the oldest pending callback fires *)

Definition handle (fuel : nat) (i : Input) (app : App) : result :=
  match i with
  | InStart => startWordGame fuel app
  | InLetter letter => selectLetter letter app
  | InListen => speakCurrentGameWord app
  | InClose => Done (closeGame app)
  | InTick id => tick id app
  | InTimeout => fireTimeout fuel app
  end.

(** An uncaught exception ends the handler, not the page: the next input
    finds the state the handler left. *)
Fixpoint run (fuel : nat) (inputs : list Input) (app : App) : option App :=
  match inputs with
  | [] => Some app
  | i :: rest =>
      match stateOf (handle fuel i app) with
      | Some app' => run fuel rest app'
      | None => None
      end
  end.

(** A results event as a game of 10 questions can show it. *)
Definition resultShown (e : Event) : Prop :=
  match e with
  | EvResults s t tier => t = 10%nat ∧ (s ≤ 10)%nat ∧ tier = bandOf s 10
  | _ => True
  end.

(** What every run keeps: results as above; without a game, no live
    interval and no modal; with a game, the modal on screen, 10 questions,
    a score within the rounds started so far, and at most one live
    interval, the one [gameState.timer] names. *)
Definition sound (app : App) : Prop :=
  Forall resultShown (log app) ∧
  match gameState app with
  | None => intervals app = [] ∧ modalOpen app = false
  | Some gs =>
      modalOpen app = true ∧ totalQuestions gs = 10%nat ∧
      (score gs + (if isAnswered gs then 0 else 1)
         ≤ (currentQuestion gs + 1) `min` 10)%nat ∧
      (intervals app = [] ∨ ∃ id, timer gs = Some id ∧ intervals app = [id])
  end.

(** ** The word page *)

Module Page.

(** [s.toLowerCase()] on ASCII text *)
Definition lower_ascii (c : ascii) : ascii :=
  let n := nat_of_ascii c in
  if (65 <=? n)%nat && (n <=? 90)%nat then ascii_of_nat (n + 32) else c.

Fixpoint toLowerCase (s : string) : string :=
  match s with
  | EmptyString => EmptyString
  | String c s' => String (lower_ascii c) (toLowerCase s')
  end.

(** [s.includes(sub)] *)
Definition includes (sub s : string) : bool :=
  match Js.indexOf sub s with
  | Some _ => true
  | None => false
  end.

(** [!s.trim()]: nothing but white space *)
Fixpoint blank (s : string) : bool :=
  match s with
  | EmptyString => true
  | String c s' => Ascii.is_space c && blank s'
  end.

(** [a.indexOf(x)] on an array of strings; [None] stands for [-1] *)
Fixpoint indexOf (x : string) (a : list string) : option nat :=
  match a with
  | [] => None
  | y :: a' => if decide (y = x) then Some 0%nat else S <$> indexOf x a'
  end.

(** [a.find(p)]; [None] stands for [undefined] *)
Fixpoint find {A : Type} (p : A → bool) (a : list A) : option A :=
  match a with
  | [] => None
  | x :: a' => if p x then Some x else find p a'
  end.

Inductive Toast :=
  | ToastNoClicks            (* 'No clicked words yet!' *)
  | ToastLastClicked (n : nat)  (* `Showing your last ${n} clicked words!` *)
  | ToastAll (n : nat).      (* `Showing all ${n} words!` *)

(** The instance beyond the game: the fields of the word page and the two
    controls whose values the code reads or writes. *)
Record State := {
  core : App;
  currentFilter : string;
  clickedWords : list string;
  currentWord : option WordRecord;
  searchBar : string;       (* value of [#search-bar] *)
  filterSelect : string;    (* value of [#filter-select] *)
  toasts : list Toast
}.

(** The state of a freshly loaded page. *)
Definition newState (app : App) : State :=
  {| core := app; currentFilter := "all"; clickedWords := [];
     currentWord := None; searchBar := EmptyString; filterSelect := "all";
     toasts := [] |}.

Definition setFiltered (fs : list WordRecord) (st : State) : State :=
  {| core := setCatalogue (words (core st)) fs (wordLookup (core st)) (core st);
     currentFilter := currentFilter st; clickedWords := clickedWords st;
     currentWord := currentWord st; searchBar := searchBar st;
     filterSelect := filterSelect st; toasts := toasts st |}.

Definition setFilter (c : string) (st : State) : State :=
  {| core := core st; currentFilter := c; clickedWords := clickedWords st;
     currentWord := currentWord st; searchBar := searchBar st;
     filterSelect := filterSelect st; toasts := toasts st |}.

Definition setControls (bar sel : string) (st : State) : State :=
  {| core := core st; currentFilter := currentFilter st;
     clickedWords := clickedWords st; currentWord := currentWord st;
     searchBar := bar; filterSelect := sel; toasts := toasts st |}.

Definition showToast (t : Toast) (st : State) : State :=
  {| core := core st; currentFilter := currentFilter st;
     clickedWords := clickedWords st; currentWord := currentWord st;
     searchBar := searchBar st; filterSelect := filterSelect st;
     toasts := toasts st ++ [t] |}.

(** [this.words.filter(word => word.category === c)] *)
Definition byCategory (c : string) (ws : list WordRecord) : list WordRecord :=
  filter (λ w, category w = c) ws.

(** [currentFilter === 'all' ? this.words : this.words.filter(...)] *)
Definition baseWords (st : State) : list WordRecord :=
  if decide (currentFilter st = "all") then words (core st)
  else byCategory (currentFilter st) (words (core st)).

(** [word.word.toLowerCase().includes(term) ||
     word.phonics.toLowerCase().includes(term)] *)
Definition matches (term : string) (w : WordRecord) : bool :=
  includes term (toLowerCase (word w)) || includes term (toLowerCase (phonics w)).

Definition searchWords (searchTerm : string) (st : State) : State :=
  if blank searchTerm then setFiltered (baseWords st) st
  else
    let term := toLowerCase searchTerm in
    setFiltered (filter (matches term) (baseWords st)) st.

(** [filterWords]: the search term is read from the search bar. *)
Definition filterWords (c : string) (st : State) : State :=
  let st1 := setFilter c st in
  let searchTerm := searchBar st1 in
  let st2 :=
    if decide (c = "all") then setFiltered (words (core st1)) st1
    else setFiltered (byCategory c (words (core st1))) st1 in
  if negb (blank searchTerm) then searchWords searchTerm st2 else st2.

(** The listeners of the two controls: the control has its new value when
    the listener runs. *)
Definition onSearchInput (value : string) (st : State) : State :=
  searchWords value (setControls value (filterSelect st) st).

Definition onFilterChange (value : string) (st : State) : State :=
  filterWords value (setControls (searchBar st) value st).

Definition showAllWords (st : State) : State :=
  let st1 := setFiltered (words (core st)) st in
  let st2 := setControls EmptyString "all" st1 in
  showToast (ToastAll (length (words (core st2)))) (setFilter "all" st2).

(** [addToClickedWords]: the new value of [this.clickedWords]. *)
Definition addToClickedWords (w : string) (clicked : list string) : list string :=
  let clicked1 := match indexOf w clicked with
                  | Some index => delete index clicked
                  | None => clicked
                  end in
  take 10 (w :: clicked1).

Definition showLastClickedWords (st : State) : State :=
  if (length (clickedWords st) =? 0)%nat then showToast ToastNoClicks st
  else
    let clickedWordObjects :=
      omap (λ w, find (λ r, bool_decide (word r = w)) (words (core st)))
           (clickedWords st) in
    let st1 := setFiltered clickedWordObjects st in
    let st2 := setControls EmptyString "all" st1 in
    showToast (ToastLastClicked (length clickedWordObjects)) st2.

(** [onWordButtonSelected]: the word becomes current, is spoken, and goes
    to the front of the history. *)
Definition onWordButtonSelected (wordObj : WordRecord) (st : State) : State :=
  {| core := speakWord wordObj (core st);
     currentFilter := currentFilter st;
     clickedWords := addToClickedWords (word wordObj) (clickedWords st);
     currentWord := Some wordObj;
     searchBar := searchBar st; filterSelect := filterSelect st;
     toasts := toasts st |}.

(** The texts of the buttons [renderWords] builds: [createWordButton] makes
    no button for a record without text. *)
Definition buttons (st : State) : list string :=
  word <$> filter (λ r, word r ≠ EmptyString) (filteredWords (core st)).

(** The click listener of the grid, on the button with text [wordText]. *)
Definition onGridClick (wordText : string) (st : State) : State :=
  match wordLookup (core st) !! wordText with
  | Some wordObj => onWordButtonSelected wordObj st
  | None => st
  end.

(** The [Set] of [getUniqueCategories], in insertion order. *)
Definition categorySet (ws : list WordRecord) : list string :=
  foldl (λ acc w, if decide (category w ∈ acc) then acc
                  else acc ++ [category w]) [] ws.

(** [Array.from(categories).sort()]: by code units, ascending. *)
Definition getUniqueCategories (ws : list WordRecord) : list string :=
  merge_sort String.le (categorySet ws).

(** The history after clicking the words [ws] one after the other. *)
Definition history (ws : list string) : list string :=
  foldl (λ h w, addToClickedWords w h) [] ws.

(** The distinct elements of a list, each at its first place. *)
Fixpoint distinct (l : list string) : list string :=
  match l with
  | [] => []
  | x :: l' => x :: filter (λ y, y ≠ x) (distinct l')
  end.

(** A speech voice, as far as [getVoice] looks at it. *)
Record Voice := { lang : string; voiceName : string }.

(** The test [getVoice] hands to [find], for [this.language]. *)
Definition speaks (language : string) (v : Voice) : bool :=
  if decide (language = "french") then
    includes "fr-CA" (lang v) || includes "fr-FR" (lang v) || includes "fr" (lang v)
  else
    includes "en-CA" (lang v) || includes "en-US" (lang v) || includes "en" (lang v).

(** [getVoice]; [None] stands for [null]. *)
Definition getVoice (language : string) (voices : list Voice) : option Voice :=
  if (length voices =? 0)%nat then None
  else match find (speaks language) voices with
       | Some v => Some v
       | None => voices !! 0%nat
       end.

(** What the user can do on the word page (the random selection apart). *)
Inductive Input :=
  | Search (value : string)       (* typing in the search bar *)
  | Filter (value : string)       (* choosing a category *)
  | ShowAll                       (* the "show all" button *)
  | ShowLast                      (* the "history" button *)
  | Click (wordText : string).    (* a word button *)

Definition handle (i : Input) (st : State) : State :=
  match i with
  | Search value => onSearchInput value st
  | Filter value => onFilterChange value st
  | ShowAll => showAllWords st
  | ShowLast => showLastClickedWords st
  | Click wordText => onGridClick wordText st
  end.

Definition run (inputs : list Input) (st : State) : State :=
  foldl (λ st i, handle i st) st inputs.

End Page.
(** ** Properties of [shuffleArray] *)

Section ShuffleFacts.
Context {A : Type}.
Implicit Types l : list A.

Lemma swap_Permutation i j l : swap i j l ≡ₚ l.
Proof.
  unfold swap.
  destruct (l !! i) as [x|] eqn:Hi; [|done].
  destruct (l !! j) as [y|] eqn:Hj; [|done].
  by apply Permutation_insert_swap.
Qed.

Lemma shuffleLoop_Permutation i l g : (shuffleLoop i l g).1 ≡ₚ l.
Proof.
  revert l g. induction i as [|i IH]; intros l g; [done|].
  cbn [shuffleLoop]. destruct (randomIndex (S i + 1) g) as [j g1].
  rewrite IH. apply swap_Permutation.
Qed.

Lemma shuffleArray_Permutation l g : (shuffleArray l g).1 ≡ₚ l.
Proof. apply shuffleLoop_Permutation. Qed.

End ShuffleFacts.

(** ** Properties of the option generator *)

Lemma randomIndex_lt n g : (0 < n)%nat → ((randomIndex n g).1 < n)%nat.
Proof.
  intros Hn. unfold randomIndex. destruct (draw g) as [r g']. simpl.
  apply Nat.mod_upper_bound. lia.
Qed.

Lemma property_Some {V} key (obj : list (string * V)) v :
  property key obj = Some v → (key, v) ∈ obj.
Proof.
  induction obj as [|[k w] obj IH]; simpl; [done|].
  case_decide as Hk.
  - intros [= ->]. subst k. apply list_elem_of_here.
  - intros H. apply list_elem_of_further. auto.
Qed.

(** Every row of the table offers three different letters, none of them the
    key of the row. *)
Lemma similar_rows :
  Forall (λ row, length row.2 = 3%nat ∧ NoDup row.2 ∧ row.1 ∉ row.2) similar.
Proof. apply (bool_decide_unpack _). by vm_compute. Qed.

(** The inherited names are long: an answer of one or two characters is
    never one of them. *)
Lemma objectPrototype_long :
  Forall (λ row, (7 ≤ String.length row.1)%nat) objectPrototype.
Proof. apply (bool_decide_unpack _). by vm_compute. Qed.

Lemma property_objectPrototype_short key :
  (String.length key < 7)%nat → property key objectPrototype = None.
Proof.
  intros Hlen. destruct (property key objectPrototype) as [n|] eqn:Hp; [|done].
  apply property_Some in Hp.
  pose proof (proj1 (Forall_forall _ _) objectPrototype_long _ Hp) as Hl.
  simpl in Hl. lia.
Qed.

(** For an answer that is not an inherited name the candidates are an
    array: three different letters, none of them the answer. *)
Lemma generateSimilarLetters_spec c :
  property (Js.toString c) objectPrototype = None →
  ∃ wrong, generateSimilarLetters c = Letters wrong ∧
           length wrong = 3%nat ∧ NoDup wrong ∧ c ∉ wrong.
Proof.
  intros Hown. unfold generateSimilarLetters. rewrite Hown.
  destruct (property (Js.toString c) similar) as [vs|] eqn:Hp.
  - apply property_Some in Hp.
    pose proof (proj1 (Forall_forall _ _) similar_rows _ Hp) as (Hl & Hn & Hk).
    simpl in *. eexists. split; [done|]. split_and!.
    + by rewrite length_fmap.
    + apply NoDup_fmap_2; [|done]. by intros ?? [=].
    + destruct c as [|s]; simpl in *.
      * intros (? & [=] & _)%list_elem_of_fmap.
      * intros (? & [= <-] & ?)%list_elem_of_fmap. done.
  - eexists. split; [done|]. split_and!; [done| |].
    + apply (bool_decide_unpack _). by vm_compute.
    + destruct c as [|s]; simpl in *.
      * apply (bool_decide_unpack _). by vm_compute.
      * rewrite !not_elem_of_cons. split_and!;
          [intros [= ->]; by vm_compute in Hp ..|apply not_elem_of_nil].
Qed.

Lemma pushNew_NoDup x options : NoDup options → NoDup (pushNew x options).
Proof.
  intros Hn. unfold pushNew, includes. case_bool_decide; [done|].
  apply NoDup_app. split_and!; [done| |apply NoDup_singleton].
  intros y Hy ->%list_elem_of_singleton. done.
Qed.

Lemma pushNew_keeps x y options : y ∈ options → y ∈ pushNew x options.
Proof.
  intros Hy. unfold pushNew. destruct (includes x options); [done|].
  apply elem_of_app. by left.
Qed.

Lemma pushNew_fresh x options : x ∉ options → pushNew x options = (options ++ [x])%list.
Proof. intros Hx. unfold pushNew, includes. by rewrite bool_decide_eq_false_2. Qed.

Lemma drawLoop_NoDup n options wrong g :
  NoDup options → NoDup (drawLoop n options wrong g).1.1.
Proof.
  revert options wrong g. induction n as [|n IH]; intros options wrong g Hn; [done|].
  cbn [drawLoop].
  destruct ((length options <? 4)%nat && (0 <? length wrong)%nat); [|done].
  destruct (randomIndex (length wrong) g) as [i g1].
  unfold spliceOne. apply IH. by apply pushNew_NoDup.
Qed.

Lemma drawLoop_keeps n options wrong g y :
  y ∈ options → y ∈ (drawLoop n options wrong g).1.1.
Proof.
  revert options wrong g. induction n as [|n IH]; intros options wrong g Hy; [done|].
  cbn [drawLoop].
  destruct ((length options <? 4)%nat && (0 <? length wrong)%nat); [|done].
  destruct (randomIndex (length wrong) g) as [i g1].
  unfold spliceOne. apply IH. by apply pushNew_keeps.
Qed.

(** With candidates that are pairwise different and all new, every draw is
    pushed: the loop stops with four options or with the candidates used
    up, whichever comes first. *)
Lemma drawLoop_length n options wrong g :
  length wrong = n → NoDup wrong → (∀ x, x ∈ wrong → x ∉ options) →
  (length options ≤ 4)%nat →
  length (drawLoop n options wrong g).1.1 = (length options + n) `min` 4.
Proof.
  revert options wrong g.
  induction n as [|n IH]; intros options wrong g Hlen Hnd Hnew Hle.
  { simpl. lia. }
  cbn [drawLoop].
  destruct (length options <? 4)%nat eqn:H4; simpl.
  2: { apply Nat.ltb_ge in H4. lia. }
  apply Nat.ltb_lt in H4.
  destruct (0 <? length wrong)%nat eqn:H0; [|apply Nat.ltb_ge in H0; lia].
  pose proof (randomIndex_lt (length wrong) g ltac:(lia)) as Hi.
  destruct (randomIndex (length wrong) g) as [i g1]. simpl in Hi.
  unfold spliceOne.
  destruct (lookup_lt_is_Some_2 wrong i Hi) as [x Hx]. rewrite Hx. simpl.
  pose proof (delete_Permutation _ _ _ Hx) as Hperm.
  assert (NoDup (x :: delete i wrong)) as Hnd' by by rewrite <- Hperm.
  apply NoDup_cons in Hnd' as [Hxd Hdd].
  assert (x ∈ wrong) as Hxw by (rewrite Hperm; apply list_elem_of_here).
  rewrite (pushNew_fresh x options) by auto.
  rewrite IH.
  - rewrite length_app. simpl. lia.
  - rewrite length_delete by eauto. lia.
  - done.
  - intros y Hy [Hyo| ->%list_elem_of_singleton]%elem_of_app; [|done].
    apply (Hnew y); [|done]. rewrite Hperm. by apply list_elem_of_further.
  - rewrite length_app. simpl. lia.
Qed.

(** Counting down from [length wrongOptions] never cuts the loop short: on
    return its condition is false. *)
Lemma drawLoop_exit n options wrong g :
  (length wrong ≤ n)%nat →
  (length (drawLoop n options wrong g).1.1 <? 4)%nat &&
  (0 <? length (drawLoop n options wrong g).1.2)%nat = false.
Proof.
  revert options wrong g. induction n as [|n IH]; intros options wrong g Hn.
  - destruct wrong; [|simpl in Hn; lia]. simpl. apply andb_false_r.
  - cbn [drawLoop].
    destruct ((length options <? 4)%nat && (0 <? length wrong)%nat) eqn:Hc;
      [|done].
    apply andb_prop in Hc as [_ H0%Nat.ltb_lt].
    pose proof (randomIndex_lt (length wrong) g H0) as Hi.
    destruct (randomIndex (length wrong) g) as [i g1]. simpl in Hi.
    unfold spliceOne. apply IH.
    rewrite length_delete by by apply lookup_lt_is_Some_2. lia.
Qed.

Lemma fillLoop_full fuel options g :
  (4 ≤ length options)%nat → fillLoop fuel options g = Ok (options, g).
Proof.
  intros H. destruct fuel; simpl;
    by rewrite (proj2 (Nat.ltb_ge _ _)) by done.
Qed.

Lemma generateLetterOptions_Ok fuel c g :
  property (Js.toString c) objectPrototype = None →
  ∃ options g' wrong,
    generateLetterOptions fuel c g = Ok (options, g') ∧
    options ≡ₚ (drawLoop 3 [c] wrong g).1.1 ∧
    length options = 4%nat.
Proof.
  intros Hown.
  destruct (generateSimilarLetters_spec c Hown) as (wrong & Hw & Hlen & Hnd & Hc).
  unfold generateLetterOptions. rewrite Hw, Hlen.
  pose proof (drawLoop_length 3 [c] wrong g Hlen Hnd) as Hl.
  destruct (drawLoop 3 [c] wrong g) as [[options1 rest] g1] eqn:Hd.
  simpl in Hl.
  assert (length options1 = 4%nat) as H4.
  { apply Hl; [|simpl; lia]. intros x Hx ->%list_elem_of_singleton. done. }
  unfold fillAndShuffle. rewrite fillLoop_full by lia.
  destruct (shuffleArray options1 g1) as [options g'] eqn:Hs.
  exists options, g', wrong. split; [done|].
  pose proof (shuffleArray_Permutation options1 g1) as Hp. rewrite Hs in Hp.
  simpl in Hp. rewrite Hd. simpl. split; [done|]. by rewrite Hp.
Qed.

(** Options that are a rearrangement of what the drawing loop built from
    [[c]] are pairwise distinct and hold [c] once. *)
Lemma drawLoop_once n c wrong g (l : list jsval) :
  l ≡ₚ (drawLoop n [c] wrong g).1.1 →
  NoDup l ∧ count_occ jsval_eq_dec l c = 1%nat.
Proof.
  intros Hperm.
  assert (NoDup l) as Hnd.
  { rewrite Hperm. apply drawLoop_NoDup, NoDup_singleton. }
  split; [done|].
  apply (proj1 (NoDup_count_occ' jsval_eq_dec l)).
  - by apply NoDup_ListNoDup.
  - apply list_elem_of_In. rewrite Hperm.
    apply drawLoop_keeps, list_elem_of_here.
Qed.


(** ** Properties of the masking rules *)

Lemma drop_0 w : Js.drop 0 w = w.
Proof. by destruct w. Qed.

Lemma maskAt_masked i n w : maskAt i n w = masked i n w.
Proof.
  unfold maskAt, masked, Js.substring. by rewrite drop_0, Nat.sub_0_r.
Qed.

Lemma maskLetter_masked p w : maskLetter p w = masked p 1 w.
Proof.
  unfold maskLetter, masked, Js.substring. by rewrite drop_0, Nat.sub_0_r.
Qed.

Lemma toUpperCase_length s : String.length (Js.toUpperCase s) = String.length s.
Proof. induction s as [|c s IH]; simpl; by f_equal. Qed.

Lemma occursAt_0 d w : occursAt d 0 w ↔ String.prefix d w = true.
Proof. unfold occursAt. rewrite drop_0. split; [by intros [_ ?]|]. split; [lia|done]. Qed.

Lemma occursAt_S d j c w : occursAt d (S j) (String c w) ↔ occursAt d j w.
Proof. unfold occursAt. simpl. split; intros [? ?]; split; [lia|done|lia|done]. Qed.

Lemma occursAt_S_empty d j : ¬ occursAt d (S j) EmptyString.
Proof. intros [H _]. simpl in H. lia. Qed.

(** [indexOf] reports an occurrence, and the leftmost one. *)
Lemma indexOf_Some d w i :
  Js.indexOf d w = Some i →
  occursAt d i w ∧ ∀ j, (j < i)%nat → ¬ occursAt d j w.
Proof.
  revert i. induction w as [|c w IH]; intros i; cbn [Js.indexOf].
  - destruct (String.prefix d EmptyString) eqn:Hp; [|done].
    intros [= <-]. split; [by apply occursAt_0|]. intros j Hj. lia.
  - destruct (String.prefix d (String c w)) eqn:Hp.
    + intros [= <-]. split; [by apply occursAt_0|]. intros j Hj. lia.
    + destruct (Js.indexOf d w) as [i'|]; [|done]. simpl. intros [= <-].
      destruct (IH i' eq_refl) as [Ho Hmin]. split; [by apply occursAt_S|].
      intros [|j] Hj.
      * rewrite occursAt_0. congruence.
      * rewrite occursAt_S. apply Hmin. lia.
Qed.

Lemma indexOf_None d w : Js.indexOf d w = None → ∀ j, ¬ occursAt d j w.
Proof.
  induction w as [|c w IH]; cbn [Js.indexOf].
  - destruct (String.prefix d EmptyString) eqn:Hp; [done|]. intros _ [|j].
    + rewrite occursAt_0. congruence.
    + apply occursAt_S_empty.
  - destruct (String.prefix d (String c w)) eqn:Hp; [done|].
    destruct (Js.indexOf d w) as [i'|]; [done|]. intros _ [|j].
    + rewrite occursAt_0. congruence.
    + rewrite occursAt_S. by apply IH.
Qed.

(** The pattern loop stops at the first pattern of the list that occurs. *)
Lemma findPattern_Some ps w d i :
  findPattern ps w = Some (d, i) →
  ∃ l1 l2, ps = (l1 ++ d :: l2)%list ∧
           (∀ d', d' ∈ l1 → Js.indexOf d' w = None) ∧
           Js.indexOf d w = Some i.
Proof.
  induction ps as [|p ps IH]; simpl; [done|].
  destruct (Js.indexOf p w) as [k|] eqn:Hk.
  - intros [= -> ->]. exists [], ps. split_and!; [done| |done].
    intros d' Hd'. by apply elem_of_nil in Hd'.
  - intros (l1 & l2 & -> & Hl1 & Hi)%IH. exists (p :: l1), l2.
    split_and!; [done| |done].
    intros d' [->|Hd']%elem_of_cons; auto.
Qed.

Lemma findPattern_None ps w :
  findPattern ps w = None → ∀ d, d ∈ ps → Js.indexOf d w = None.
Proof.
  induction ps as [|p ps IH]; simpl.
  - intros _ d Hd. by apply elem_of_nil in Hd.
  - destruct (Js.indexOf p w) as [k|] eqn:Hk; [done|].
    intros Hn d [->|Hd]%elem_of_cons; auto.
Qed.

Lemma findPattern_occurs ps w d i :
  d ∈ ps → occursAt d i w → is_Some (findPattern ps w).
Proof.
  intros Hd Ho. destruct (findPattern ps w) as [r|] eqn:Hf; [by eexists|].
  exfalso. eapply indexOf_None; [|done]. by eapply findPattern_None.
Qed.

Lemma findPattern_elem ps w d i : findPattern ps w = Some (d, i) → d ∈ ps.
Proof.
  intros (l1 & l2 & -> & _)%findPattern_Some.
  apply elem_of_app. right. apply list_elem_of_here.
Qed.

Lemma patterns_two_letters :
  Forall (λ d, String.length d = 2%nat) (digraphs ++ blends).
Proof. apply (bool_decide_unpack _). by vm_compute. Qed.

Lemma charAt_own i w :
  property (Js.toString (Js.charAt i w)) objectPrototype = None.
Proof.
  unfold Js.charAt. destruct (String.get i w); [|reflexivity].
  apply property_objectPrototype_short. simpl. lia.
Qed.

(** The answer [maskWord] picks is [undefined], one character of the word,
    a digraph or a blend: never a name inherited from [Object.prototype]. *)
Lemma maskWord_own w g :
  property (Js.toString (maskWord w g).1.1) objectPrototype = None.
Proof.
  unfold maskWord. destruct (String.length w <=? 3)%nat.
  { destruct (randomAboveHalf g) as [above g1]. apply charAt_own. }
  destruct (findPattern digraphs w) as [[d i]|] eqn:Hd.
  { simpl. apply property_objectPrototype_short.
    apply findPattern_elem in Hd.
    rewrite (proj1 (Forall_forall _ _) patterns_two_letters d); [lia|].
    apply elem_of_app. by left. }
  destruct (findPattern blends w) as [[d i]|] eqn:Hb.
  { simpl. apply property_objectPrototype_short.
    apply findPattern_elem in Hb.
    rewrite (proj1 (Forall_forall _ _) patterns_two_letters d); [lia|].
    apply elem_of_app. by right. }
  destruct (randomIndex (String.length w) g) as [position g1]. apply charAt_own.
Qed.

(** What [generateWordPuzzle] stores for a current word: the answer and the
    display of [maskWord], four distinct options with the answer among them
    once, and nothing else changed. *)
Lemma generateWordPuzzle_spec fuel gs cw g :
  currentWord gs = Some cw →
  ∃ gs' g',
    generateWordPuzzle fuel gs g = Ok (gs', g') ∧
    correctAnswer gs' = (maskWord (Js.toUpperCase (word cw)) g).1.1 ∧
    displayWord gs' = JStr (maskWord (Js.toUpperCase (word cw)) g).1.2 ∧
    (length (letterOptions gs') = 4%nat ∧
     NoDup (letterOptions gs') ∧
     count_occ jsval_eq_dec (letterOptions gs') (correctAnswer gs') = 1%nat) ∧
    currentQuestion gs' = currentQuestion gs ∧ score gs' = score gs ∧
    totalQuestions gs' = totalQuestions gs ∧ timeLeft gs' = timeLeft gs ∧
    timer gs' = timer gs ∧ gameWords gs' = gameWords gs ∧
    currentWord gs' = currentWord gs ∧ isAnswered gs' = isAnswered gs.
Proof.
  intros Hcw. unfold generateWordPuzzle. rewrite Hcw.
  pose proof (maskWord_own (Js.toUpperCase (word cw)) g) as Hown.
  destruct (maskWord (Js.toUpperCase (word cw)) g) as [[missingPart display] g1].
  destruct (generateLetterOptions_Ok fuel missingPart g1 Hown)
    as (options & g' & wrong & -> & Hperm & H4).
  destruct (drawLoop_once _ _ _ _ _ Hperm) as [Hnd Hc].
  eexists _, _. split; [done|]. simpl. done.
Qed.

(** C1. Every puzzle [generateWordPuzzle] generates carries exactly 4
    options, pairwise distinct, with the correct answer among them exactly
    once; and so does what [generateLetterOptions] returns for any correct
    answer (a non-empty string, the empty string or [undefined]) that is
    not the name of a member inherited from [Object.prototype], as no upper-
    cased piece of a word is.  In both cases the call returns, whatever the
    random draws and the fuel. *)
Theorem generateLetterOptions_four_distinct :
  (∀ fuel gs cw g,
     currentWord gs = Some cw →
     ∃ gs' g',
       generateWordPuzzle fuel gs g = Ok (gs', g') ∧
       length (letterOptions gs') = 4%nat ∧
       NoDup (letterOptions gs') ∧
       count_occ jsval_eq_dec (letterOptions gs') (correctAnswer gs') = 1%nat) ∧
  (∀ fuel correctAnswer g,
     property (Js.toString correctAnswer) objectPrototype = None →
     ∃ options g',
       generateLetterOptions fuel correctAnswer g = Ok (options, g') ∧
       length options = 4%nat ∧
       NoDup options ∧
       count_occ jsval_eq_dec options correctAnswer = 1%nat).
Proof.
  split.
  - intros fuel gs cw g Hcw.
    destruct (generateWordPuzzle_spec fuel gs cw g Hcw)
      as (gs' & g' & Hgen & _ & _ & Hinv & _).
    by exists gs', g'.
  - intros fuel correctAnswer g Hown.
    destruct (generateLetterOptions_Ok fuel correctAnswer g Hown)
      as (options & g' & wrong & Hgen & Hperm & Hlen).
    destruct (drawLoop_once _ _ _ _ _ Hperm) as [Hnd Hc].
    by exists options, g'.
Qed.

Lemma generateLetterOptions_four_distinct_witness :
  property (Js.toString (JStr "SH")) objectPrototype = None ∧
  ∃ options g',
    generateLetterOptions 0 (JStr "SH") [1; 0; 0; 2; 1; 0] = Ok (options, g') ∧
    length options = 4%nat ∧
    NoDup options ∧
    count_occ jsval_eq_dec options (JStr "SH") = 1%nat.
Proof.
  split; [reflexivity|].
  apply (proj2 generateLetterOptions_four_distinct 0 (JStr "SH") [1; 0; 0; 2; 1; 0]).
  reflexivity.
Defined.

(** Why inherited names are set apart: under the key "constructor" the
    lookup finds a function, and the first loop calls its missing
    [splice]. *)
Lemma generateLetterOptions_inherited fuel g :
  generateLetterOptions fuel (JStr "constructor") g = Throw TypeError.
Proof. reflexivity. Qed.

(** The digraph branch of [maskWord]. *)
Lemma maskWord_digraph w g :
  (3 < String.length w)%nat →
  (∃ d i, d ∈ digraphs ∧ occursAt d i w) →
  ∃ d i l1 l2,
    digraphs = (l1 ++ d :: l2)%list ∧
    (∀ d' j, d' ∈ l1 → ¬ occursAt d' j w) ∧
    occursAt d i w ∧
    (∀ j, (j < i)%nat → ¬ occursAt d j w) ∧
    maskWord w g = (JStr d, masked i 2 w, g).
Proof.
  intros Hlen (d0 & i0 & Hd0 & Ho0).
  destruct (findPattern_occurs _ _ _ _ Hd0 Ho0) as [[d i] Hf].
  destruct (findPattern_Some _ _ _ _ Hf) as (l1 & l2 & Hsplit & Hl1 & Hi).
  destruct (indexOf_Some _ _ _ Hi) as [Ho Hmin].
  exists d, i, l1, l2. split_and!; [done| |done|done|].
  - intros d' j Hd'. apply indexOf_None. auto.
  - unfold maskWord.
    rewrite (proj2 (Nat.leb_gt _ _)) by lia. rewrite Hf, maskAt_masked.
    assert (d ∈ digraphs) as Hd.
    { rewrite Hsplit. apply elem_of_app. right. apply list_elem_of_here. }
    assert (String.length d = 2%nat) as ->; [|done].
    unfold digraphs in Hd. repeat (apply elem_of_cons in Hd as [->|Hd]; [done|]).
    by apply elem_of_nil in Hd.
Qed.

(** A word of three characters: one character is masked, the middle or the
    last one, and the other two stay. *)
Lemma maskWord_three_letters w g :
  String.length w = 3%nat →
  ∃ p c,
    (p = 1%nat ∨ p = 2%nat) ∧
    String.get p w = Some c ∧
    (maskWord w g).1 = (JStr (String c EmptyString), masked p 1 w).
Proof.
  intros Hlen. destruct w as [|c0 [|c1 [|c2 [|c3 w]]]]; simplify_eq/=.
  unfold maskWord. simpl. destruct (randomAboveHalf g) as [[] g1]; simpl.
  - exists 1%nat, c1. split_and!; [by left|done|done].
  - exists 2%nat, c2. split_and!; [by right|done|done].
Qed.

(** A word of fewer than three characters takes the same branch; when the
    draw picks position 2, that position is past the end: no character is
    taken out, a placeholder is appended, and the answer is [undefined]. *)
Lemma maskWord_short_past_end w g :
  (String.length w < 3)%nat → (randomAboveHalf g).1 = false →
  (maskWord w g).1 = (JUndefined, w +:+ "_").
Proof.
  intros Hlen Hdraw. unfold maskWord.
  rewrite (proj2 (Nat.leb_le _ _)) by lia.
  destruct (randomAboveHalf g) as [above g1]. simpl in Hdraw. subst above.
  destruct w as [|c0 [|c1 [|c2 w]]]; [done..|simpl in Hlen; lia].
Qed.

(** C2 (as amended). For a word whose upper-cased text has more than 3
    characters and contains one of the digraphs SH, CH, TH, PH, WH,
    [generateWordPuzzle] returns and masks a whole digraph: the first
    digraph of the list, in that order, that occurs anywhere in the word,
    at the leftmost occurrence of that digraph.  The stored answer is the
    digraph and the display has two placeholders in its place. *)
Theorem generateWordPuzzle_digraph fuel gs cw g :
  currentWord gs = Some cw →
  (3 < String.length (Js.toUpperCase (word cw)))%nat →
  (∃ d i, d ∈ digraphs ∧ occursAt d i (Js.toUpperCase (word cw))) →
  ∃ d i l1 l2 gs' g',
    digraphs = (l1 ++ d :: l2)%list ∧
    (∀ d' j, d' ∈ l1 → ¬ occursAt d' j (Js.toUpperCase (word cw))) ∧
    occursAt d i (Js.toUpperCase (word cw)) ∧
    (∀ j, (j < i)%nat → ¬ occursAt d j (Js.toUpperCase (word cw))) ∧
    generateWordPuzzle fuel gs g = Ok (gs', g') ∧
    correctAnswer gs' = JStr d ∧
    displayWord gs' = JStr (masked i 2 (Js.toUpperCase (word cw))).
Proof.
  intros Hcw Hlen Hocc.
  destruct (maskWord_digraph _ g Hlen Hocc)
    as (d & i & l1 & l2 & Hsplit & Hl1 & Ho & Hmin & Hmask).
  destruct (generateWordPuzzle_spec fuel gs cw g Hcw)
    as (gs' & g' & Hgen & Hans & Hdisp & _).
  rewrite Hmask in Hans, Hdisp.
  by exists d, i, l1, l2, gs', g'.
Qed.

Lemma generateWordPuzzle_digraph_witness :
  currentWord (roundOn (simpleWord "which")) = Some (simpleWord "which") ∧
  (∃ d i l1 l2 gs' g',
    digraphs = (l1 ++ d :: l2)%list ∧
    (∀ d' j, d' ∈ l1 → ¬ occursAt d' j "WHICH") ∧
    occursAt d i "WHICH" ∧
    (∀ j, (j < i)%nat → ¬ occursAt d j "WHICH") ∧
    generateWordPuzzle 0 (roundOn (simpleWord "which")) [] = Ok (gs', g') ∧
    correctAnswer gs' = JStr d ∧
    displayWord gs' = JStr (masked i 2 "WHICH")).
Proof.
  split; [reflexivity|].
  apply (generateWordPuzzle_digraph 0 (roundOn (simpleWord "which"))
           (simpleWord "which") []).
  - reflexivity.
  - simpl. lia.
  - exists "WH", 0%nat. split.
    + apply (bool_decide_unpack _). vm_compute. reflexivity.
    + split; [simpl; lia | reflexivity].
Defined.

(** C2 (as stated) fails on "which": WH starts the word, but the loop tries
    SH, then CH, finds CH at index 3 and masks that one. *)
Lemma masksLeftmostDigraph_which :
  ¬ masksLeftmostDigraph 0 (roundOn (simpleWord "which")) [].
Proof.
  intros H.
  destruct (H (simpleWord "which") eq_refl) as
    (d & i & gs' & g' & _ & _ & Hmin & Hgen & _ & Hdisp).
  - simpl. lia.
  - exists "WH", 0%nat. split.
    + apply (bool_decide_unpack _). by vm_compute.
    + split; [simpl; lia | reflexivity].
  - assert (i = 0%nat) as ->.
    { enough (i ≤ 0)%nat by lia. apply (Hmin "WH").
      - apply (bool_decide_unpack _). by vm_compute.
      - split; [simpl; lia | reflexivity]. }
    vm_compute in Hgen. injection Hgen as <- _.
    vm_compute in Hdisp. discriminate Hdisp.
Qed.

(** C3. On the two-letter word "at", when the draw is not above one half,
    [generateWordPuzzle] takes position 2, which is past the end: the
    display is "AT_" with both letters still there, and the stored correct
    answer is [undefined]. *)
Theorem generateWordPuzzle_two_letter_word :
  ∃ gs' g',
    generateWordPuzzle 0 (roundOn (simpleWord "at")) [0] = Ok (gs', g') ∧
    correctAnswer gs' = JUndefined ∧
    displayWord gs' = JStr "AT_" ∧
    ∀ i, (i < String.length "AT")%nat → masked i 1 "AT" ≠ "AT_".
Proof.
  eexists _, _. split; [vm_compute; reflexivity|].
  split; [reflexivity|]. split; [reflexivity|].
  intros [|[|i]] Hi; [vm_compute; discriminate..|simpl in Hi; lia].
Qed.

(** C6 (as amended). [generateWordPuzzle] does not fail on a word record,
    whatever its text, the empty text included: it returns a puzzle for
    every current word, every oracle and every fuel. *)
Theorem generateWordPuzzle_total fuel gs cw g :
  currentWord gs = Some cw →
  ∃ gs' g', generateWordPuzzle fuel gs g = Ok (gs', g').
Proof.
  intros Hcw.
  destruct (generateWordPuzzle_spec fuel gs cw g Hcw) as (gs' & g' & Hgen & _).
  by exists gs', g'.
Qed.

Lemma generateWordPuzzle_total_witness :
  currentWord (roundOn (simpleWord EmptyString)) = Some (simpleWord EmptyString) ∧
  ∃ gs' g',
    generateWordPuzzle 0 (roundOn (simpleWord EmptyString)) [] = Ok (gs', g').
Proof.
  split; [reflexivity|].
  apply (generateWordPuzzle_total 0 (roundOn (simpleWord EmptyString))
           (simpleWord EmptyString) []).
  reflexivity.
Defined.

(** C6 (as stated) fails on the empty text: no error is raised, the call
    returns a puzzle. *)
Lemma failsOnEmptyText_empty :
  ¬ failsOnEmptyText 0 (roundOn (simpleWord EmptyString)) [].
Proof.
  intros H. destruct (H (simpleWord EmptyString) eq_refl eq_refl) as [e He].
  vm_compute in He. discriminate He.
Qed.

(** Without a current word the first property access throws. *)
Lemma generateWordPuzzle_no_word fuel gs g :
  currentWord gs = None → generateWordPuzzle fuel gs g = Throw TypeError.
Proof. intros H. unfold generateWordPuzzle. by rewrite H. Qed.

(** ** Properties of the word selection *)

Lemma filter_disjoint_submseteq {A} (P Q : A → Prop)
    `{!∀ x, Decision (P x)} `{!∀ x, Decision (Q x)} (l : list A) :
  (∀ x, P x → Q x → False) → filter P l ++ filter Q l ⊆+ l.
Proof.
  intros Hdisj. induction l as [|x l IH]; [done|].
  rewrite !filter_cons. destruct (decide (P x)) as [HP|HP].
  - rewrite decide_False by eauto. simpl. by apply submseteq_skip.
  - destruct (decide (Q x)) as [HQ|HQ].
    + rewrite <- Permutation_middle. by apply submseteq_skip.
    + by apply submseteq_cons.
Qed.

Lemma isEasy_isHard w : isEasy w → isHard w → False.
Proof.
  unfold isEasy, isHard.
  intros [Hc _]%andb_prop_elim Hh.
  apply bool_decide_unpack in Hc. apply bool_decide_unpack in Hh.
  rewrite Hc in Hh. revert Hh. apply (bool_decide_unpack _). by vm_compute.
Qed.

Lemma isEasy_spec w :
  isEasy w ↔ category w = "simple" ∧ (String.length (word w) ≤ 3)%nat.
Proof.
  unfold isEasy. rewrite andb_True, bool_decide_spec.
  by rewrite Is_true_true, Nat.leb_le.
Qed.

Lemma isHard_spec w :
  isHard w ↔ category w ∈ ["digraph"; "blend"; "trigraph"; "vowel_team"].
Proof. unfold isHard. by rewrite bool_decide_spec. Qed.

Lemma take_shuffle_submseteq {A} n (pool : list A) g :
  take n (shuffleArray pool g).1 ⊆+ pool ∧
  length (take n (shuffleArray pool g).1) = n `min` length pool.
Proof.
  pose proof (shuffleArray_Permutation pool g) as Hp. split.
  - rewrite <- Hp at 2. apply sublist_submseteq, sublist_take.
  - by rewrite length_take, Hp.
Qed.

Lemma selectGameWords_spec catalogue g :
  ∃ selectedEasy selectedHard,
    (selectGameWords catalogue g).1 ≡ₚ selectedEasy ++ selectedHard ∧
    selectedEasy ⊆+ filter isEasy catalogue ∧
    selectedHard ⊆+ filter isHard catalogue ∧
    length selectedEasy = 5 `min` length (filter isEasy catalogue) ∧
    length selectedHard = 5 `min` length (filter isHard catalogue) ∧
    (selectGameWords catalogue g).1 ⊆+ catalogue.
Proof.
  unfold selectGameWords.
  destruct (take_shuffle_submseteq 5 (filter isEasy catalogue) g) as [He Hle].
  destruct (shuffleArray (filter isEasy catalogue) g) as [shuffledEasy g1].
  destruct (take_shuffle_submseteq 5 (filter isHard catalogue) g1) as [Hh Hlh].
  destruct (shuffleArray (filter isHard catalogue) g1) as [shuffledHard g2].
  simpl in *.
  exists (take 5 shuffledEasy), (take 5 shuffledHard).
  split_and!; [apply shuffleArray_Permutation|done..|].
  rewrite shuffleArray_Permutation.
  etrans; [by apply submseteq_app|].
  apply filter_disjoint_submseteq, isEasy_isHard.
Qed.

(** C7. [initializeGame] installs a fresh game state (score 0, question 0)
    whose [gameWords] is a permutation of two selections: one from the easy
    pool (category simple, text of at most 3 characters) and one from the
    hard pool (category digraph, blend, trigraph or vowel_team).  Each
    selection takes from its pool without replacement, 5 words or the whole
    pool if it is smaller, and no word occurs in [gameWords] more often
    than in the catalogue. *)
Theorem initializeGame_gameWords app :
  ∃ gs selectedEasy selectedHard,
    gameState (initializeGame app) = Some gs ∧
    score gs = 0%nat ∧ currentQuestion gs = 0%nat ∧
    gameWords gs ≡ₚ selectedEasy ++ selectedHard ∧
    selectedEasy ⊆+ filter isEasy (words app) ∧
    selectedHard ⊆+ filter isHard (words app) ∧
    length selectedEasy = 5 `min` length (filter isEasy (words app)) ∧
    length selectedHard = 5 `min` length (filter isHard (words app)) ∧
    Forall (λ w, category w = "simple" ∧ (String.length (word w) ≤ 3)%nat)
           selectedEasy ∧
    Forall (λ w, category w ∈ ["digraph"; "blend"; "trigraph"; "vowel_team"])
           selectedHard ∧
    gameWords gs ⊆+ words app.
Proof.
  destruct (selectGameWords_spec (words app) (random app))
    as (se & sh & Hperm & He & Hh & Hle & Hlh & Hsub).
  unfold initializeGame.
  destruct (selectGameWords (words app) (random app)) as [selected g].
  simpl in *. exists (withWords selected
    {| currentQuestion := 0; score := 0; totalQuestions := 10;
       timeLeft := 10; timer := None; gameWords := [];
       currentWord := None; correctAnswer := JStr EmptyString;
       isAnswered := false; displayWord := JUndefined;
       letterOptions := [] |}), se, sh.
  split_and!; try done.
  - apply Forall_forall. intros w Hw. apply isEasy_spec.
    eapply (list_elem_of_filter (λ w, isEasy w)), elem_of_submseteq; done.
  - apply Forall_forall. intros w Hw. apply isHard_spec.
    eapply (list_elem_of_filter (λ w, isHard w)), elem_of_submseteq; done.
Qed.

(** ** [shuffleArray] on the store *)

Section ShuffleStoreFacts.
Context {A : Type}.
Implicit Types (l : list A) (h : gmap nat (list A)).

(** The in-place loop at [b] computes what [shuffleLoop] computes on the
    contents of [b], and writes nowhere else. *)
Lemma shuffleLoopAt_spec b i h g l :
  h !! b = Some l →
  shuffleLoopAt b i h g = (<[b:=(shuffleLoop i l g).1]> h, (shuffleLoop i l g).2).
Proof.
  revert h g l. induction i as [|i IH]; intros h g l Hb.
  - simpl. by rewrite insert_id.
  - cbn [shuffleLoopAt shuffleLoop].
    destruct (randomIndex (S i + 1) g) as [j g1].
    rewrite (IH _ _ (swap (S i) j l)).
    + f_equal. apply map_eq. intros k. rewrite !lookup_insert, lookup_alter.
      repeat case_decide; done.
    + rewrite lookup_alter. rewrite decide_True by done. by rewrite Hb.
Qed.

Lemma shuffleArrayAt_spec array h g l :
  h !! array = Some l →
  ∃ shuffled h' g',
    shuffleArrayAt array h g = Some (shuffled, h', g') ∧
    shuffled ≠ array ∧
    h' !! array = Some l ∧
    h' !! shuffled = Some (shuffleArray l g).1 ∧
    (shuffleArray l g).1 ≡ₚ l ∧
    (∀ c, c ≠ shuffled → h' !! c = h !! c).
Proof.
  intros Ha. unfold shuffleArrayAt, allocArray. rewrite Ha.
  set (b := fresh (dom h)).
  assert (h !! b = None) as Hb by apply not_elem_of_dom, is_fresh.
  assert (b ≠ array) as Hne by congruence.
  rewrite (shuffleLoopAt_spec b _ _ g l) by apply lookup_insert_eq.
  eexists _, _, _. split; [done|]. rewrite insert_insert_eq.
  split_and!; [done| | | |].
  - by rewrite lookup_insert_ne.
  - by rewrite lookup_insert_eq.
  - apply shuffleArray_Permutation.
  - intros c Hc. by rewrite lookup_insert_ne.
Qed.

End ShuffleStoreFacts.

(** C10. For every array [l] of the store and every oracle, [shuffleArray]
    returns a new array whose contents are a permutation of [l] (the same
    elements, each as often), and the store still holds [l] at the
    argument; no other array changes either. *)
Theorem shuffleArray_permutation_fresh {A} (array : nat)
    (h : gmap nat (list A)) (g : rng) (l : list A) :
  h !! array = Some l →
  ∃ shuffled h' g' l',
    shuffleArrayAt array h g = Some (shuffled, h', g') ∧
    h' !! shuffled = Some l' ∧
    l' ≡ₚ l ∧
    l' = (shuffleArray l g).1 ∧
    shuffled ≠ array ∧
    h' !! array = Some l ∧
    (∀ c, c ≠ shuffled → h' !! c = h !! c).
Proof.
  intros Ha.
  destruct (shuffleArrayAt_spec array h g l Ha)
    as (b & h' & g' & Hs & Hne & Hold & Hnew & Hperm & Hframe).
  by exists b, h', g', (shuffleArray l g).1.
Qed.

Lemma shuffleArray_permutation_fresh_witness :
  ({[ 7%nat := ["a"; "b"; "c"] ]} : gmap nat (list string)) !! 7%nat
    = Some ["a"; "b"; "c"] ∧
  ∃ shuffled h' g' l',
    shuffleArrayAt 7 ({[ 7%nat := ["a"; "b"; "c"] ]} : gmap nat (list string))
                   [2; 0] = Some (shuffled, h', g') ∧
    h' !! shuffled = Some l' ∧
    l' ≡ₚ ["a"; "b"; "c"] ∧
    l' = (shuffleArray ["a"; "b"; "c"] [2; 0]).1 ∧
    shuffled ≠ 7%nat ∧
    h' !! 7%nat = Some ["a"; "b"; "c"] ∧
    (∀ c, c ≠ shuffled →
       h' !! c = ({[ 7%nat := ["a"; "b"; "c"] ]} : gmap nat (list string)) !! c).
Proof.
  split; [reflexivity|].
  apply (shuffleArray_permutation_fresh 7
           ({[ 7%nat := ["a"; "b"; "c"] ]} : gmap nat (list string))
           [2; 0] ["a"; "b"; "c"]).
  reflexivity.
Defined.

(** ** The end-of-game message *)

(** For the scores a game of 10 questions can reach, the binary64
    computation of [endGame] lands in the same band as the exact
    percentage. *)
Lemma resultsMessage_bandOf score :
  (score ≤ 10)%nat → resultsMessage score 10 = bandOf score 10.
Proof.
  intros H.
  do 11 (destruct score as [|score]; [vm_compute; reflexivity|]). lia.
Qed.

Lemma bandOf_spec score total :
  match bandOf score total with
  | TierOutstanding => (90 * total ≤ 100 * score)%nat
  | TierGreatJob =>
      (70 * total ≤ 100 * score)%nat ∧ (100 * score < 90 * total)%nat
  | TierGoodEffort =>
      (50 * total ≤ 100 * score)%nat ∧ (100 * score < 70 * total)%nat
  | TierKeepTrying => (100 * score < 50 * total)%nat
  end.
Proof.
  unfold bandOf.
  destruct (Nat.leb_spec (90 * total) (100 * score)); [done|].
  destruct (Nat.leb_spec (70 * total) (100 * score)); [done|].
  destruct (Nat.leb_spec (50 * total) (100 * score)); done.
Qed.

(** C8. When a game of 10 questions ends with a score of at most 10,
    [endGame] emits the final score with a message tier that depends on
    the percentage [100 * score / 10] alone, in four bands: at least 90,
    at least 70 and below 90, at least 50 and below 70, below 50. *)
Theorem endGame_message_tier app gs :
  gameState app = Some gs →
  totalQuestions gs = 10%nat →
  (score gs ≤ 10)%nat →
  ∃ app' tier,
    endGame app = Done app' ∧
    log app' = log app ++ [EvResults (score gs) 10 tier] ∧
    tier = bandOf (score gs) 10 ∧
    match tier with
    | TierOutstanding => (90 ≤ 10 * score gs)%nat
    | TierGreatJob => (70 ≤ 10 * score gs < 90)%nat
    | TierGoodEffort => (50 ≤ 10 * score gs < 70)%nat
    | TierKeepTrying => (10 * score gs < 50)%nat
    end.
Proof.
  intros Hgs Htot Hscore. unfold endGame. rewrite Hgs, Htot.
  rewrite resultsMessage_bandOf by done.
  eexists _, _. split; [done|]. split.
  - by destruct (timer gs).
  - split; [done|]. pose proof (bandOf_spec (score gs) 10) as Hb.
    destruct (bandOf (score gs) 10); lia.
Qed.

Lemma endGame_message_tier_witness :
  gameState (setGame (Some (withProgress 10 7 (roundOn (simpleWord "cat"))))
               (newApp [])) =
    Some (withProgress 10 7 (roundOn (simpleWord "cat"))) ∧
  totalQuestions (withProgress 10 7 (roundOn (simpleWord "cat"))) = 10%nat ∧
  (score (withProgress 10 7 (roundOn (simpleWord "cat"))) ≤ 10)%nat ∧
  ∃ app' tier,
    endGame (setGame (Some (withProgress 10 7 (roundOn (simpleWord "cat"))))
               (newApp [])) = Done app' ∧
    log app' = [EvResults 7 10 tier] ∧
    tier = TierGreatJob ∧
    (70 ≤ 10 * 7 < 90)%nat.
Proof.
  split; [reflexivity|]. split; [reflexivity|]. split; [simpl; lia|].
  destruct (endGame_message_tier
              (setGame (Some (withProgress 10 7 (roundOn (simpleWord "cat"))))
                 (newApp []))
              (withProgress 10 7 (roundOn (simpleWord "cat")))
              eq_refl eq_refl ltac:(simpl; lia))
    as (app' & tier & Hend & Hlog & Htier & Hband).
  exists app', tier. split; [exact Hend|]. split; [exact Hlog|].
  split; [exact Htier|]. lia.
Defined.

(** ** The lookup table of the catalogue *)

(** The table built from [ws] on top of [m]: under a non-empty text, the
    last record of [ws] with that text, or what [m] had if there is none;
    the empty text is never written. *)
Lemma buildLookup_lookup ws m k :
  buildLookup ws m !! k =
    if decide (k = EmptyString) then m !! k
    else match last (filter (λ r, word r = k) ws) with
         | Some r => Some r
         | None => m !! k
         end.
Proof.
  unfold buildLookup. revert m. induction ws as [|w ws IH]; intros m.
  - simpl. by case_decide.
  - cbn [foldl]. rewrite IH, filter_cons. clear IH.
    destruct (decide (k = EmptyString)) as [->|Hk].
    + destruct (decide (word w = EmptyString)) as [He|He]; [done|].
      by rewrite lookup_insert_ne.
    + destruct (decide (word w = k)) as [<-|Hwk].
      * rewrite decide_False by done. rewrite last_cons, lookup_insert_eq.
        by destruct (last _).
      * destruct (decide (word w = EmptyString)); [done|].
        by rewrite lookup_insert_ne.
Qed.

Lemma filter_none {A} (P : A → Prop) `{!∀ x, Decision (P x)} (l : list A) :
  Forall (λ x, ¬ P x) l → filter P l = [].
Proof.
  induction 1 as [|x l Hx _ IH]; [done|]. by rewrite filter_cons_False.
Qed.

Lemma loadWords_array data app :
  words (loadWords (FetchArray data) app) = data ∧
  wordLookup (loadWords (FetchArray data) app) = buildLookup data ∅.
Proof.
  unfold loadWords. destruct data as [|r data]; done.
Qed.

(** C9 (as amended). After [loadWords] has received the array of records:
    every record stored in the table stands in the sequence, under its own
    text as key; and a record of the sequence is the value stored under its
    text whenever that text is not empty and no later record of the
    sequence has the same text. *)
Theorem loadWords_lookup data app :
  let app' := loadWords (FetchArray data) app in
  (∀ k r, wordLookup app' !! k = Some r → r ∈ words app' ∧ word r = k) ∧
  (∀ i r, words app' !! i = Some r →
     word r ≠ EmptyString →
     (∀ j r', (i < j)%nat → words app' !! j = Some r' → word r' ≠ word r) →
     wordLookup app' !! word r = Some r).
Proof.
  intros app'. destruct (loadWords_array data app) as [Hw Hm].
  subst app'. rewrite Hw, Hm. clear Hw Hm. split.
  - intros k r. rewrite buildLookup_lookup, lookup_empty.
    destruct (decide (k = EmptyString)); [done|].
    destruct (last _) as [r'|] eqn:Hlast; [|done]. intros [= ->].
    apply last_Some_elem_of, list_elem_of_filter in Hlast as [? ?]. done.
  - intros i r Hi Hne Hlater. rewrite buildLookup_lookup, decide_False by done.
    rewrite <- (take_drop_middle _ _ _ Hi), filter_app, filter_cons_True by done.
    assert (filter (λ r0, word r0 = word r) (drop (S i) data) = []) as ->.
    { apply filter_none, Forall_forall. intros r' Hr'.
      apply list_elem_of_lookup in Hr' as [j Hj]. rewrite lookup_drop in Hj.
      apply (Hlater (S i + j)%nat); [lia|done]. }
    by rewrite last_snoc.
Qed.

Lemma loadWords_lookup_witness :
  wordLookup
    (loadWords
       (FetchArray [ {| word := "cat"; phonics := "k-a-t"; category := "simple" |};
                     {| word := "ship"; phonics := "sh-i-p"; category := "digraph" |} ])
       (newApp [])) !! "ship" =
  Some {| word := "ship"; phonics := "sh-i-p"; category := "digraph" |}.
Proof.
  apply (proj2 (loadWords_lookup
           [ {| word := "cat"; phonics := "k-a-t"; category := "simple" |};
             {| word := "ship"; phonics := "sh-i-p"; category := "digraph" |} ]
           (newApp [])) 1%nat
           {| word := "ship"; phonics := "sh-i-p"; category := "digraph" |}).
  - reflexivity.
  - discriminate.
  - intros [|[|j]] r' Hj Hr'; [lia..|discriminate Hr'].
Defined.

(** C9 (as stated) fails when two records share a text: the table keeps
    the later one only, so the earlier record of the sequence is not a
    value of the table. *)
Lemma lookupAgrees_duplicate :
  ¬ lookupAgrees
      (loadWords
         (FetchArray [ {| word := "cat"; phonics := "k-a-t"; category := "simple" |};
                       {| word := "cat"; phonics := "c-at"; category := "simple" |} ])
         (newApp [])).
Proof.
  intros [_ H].
  destruct (H {| word := "cat"; phonics := "k-a-t"; category := "simple" |})
    as [k Hk].
  { apply list_elem_of_here. }
  destruct (loadWords_array
              [ {| word := "cat"; phonics := "k-a-t"; category := "simple" |};
                {| word := "cat"; phonics := "c-at"; category := "simple" |} ]
              (newApp [])) as [_ Hm].
  rewrite Hm, buildLookup_lookup, lookup_empty in Hk.
  destruct (decide (k = EmptyString)); [done|].
  rewrite !filter_cons in Hk.
  destruct (decide ("cat" = k)) as [<-|Hne]; simpl in Hk.
  - congruence.
  - rewrite !decide_False in Hk by done. discriminate Hk.
Qed.

(** ** The round state machine *)

Lemma feedbacks_snoc l e :
  feedbacks (l ++ [e]) = feedbacks l ++ (if isFeedback e then [e] else []).
Proof.
  unfold feedbacks. rewrite filter_app. f_equal.
  rewrite filter_cons, filter_nil.
  case_decide as H; destruct (isFeedback e); naive_solver.
Qed.

(** An answer that [selectLetter] accepts leaves the round answered. *)
Lemma selectLetter_sets_isAnswered letter app app1 :
  selectLetter letter app = Done app1 →
  ∃ gs1, gameState app1 = Some gs1 ∧ isAnswered gs1 = true.
Proof.
  unfold selectLetter. destruct (gameState app) as [gs|] eqn:Hgs; [|done].
  destruct (isAnswered gs) eqn:Ha.
  - intros [= <-]. by exists gs.
  - intros [= <-]. unfold playSound, showFeedback.
    destruct (bool_decide _), (timer gs), (audioContext app) eqn:Hau;
      simpl; rewrite ?Hau; simpl; by eexists.
Qed.

Lemma selectLetter_answered letter app gs :
  gameState app = Some gs → isAnswered gs = true →
  selectLetter letter app = Done app.
Proof. intros Hgs Ha. unfold selectLetter. by rewrite Hgs, Ha. Qed.

(** C4. When the round is already answered, [selectLetter] returns at once
    with the whole state as it was: score, timers and the event log (so no
    feedback event); and answering twice is the same as answering once,
    so only the first answer of a round can change the score. *)
Theorem selectLetter_once :
  (∀ letter app gs,
     gameState app = Some gs → isAnswered gs = true →
     selectLetter letter app = Done app) ∧
  (∀ first second app,
     andThen (selectLetter first app) (selectLetter second) =
     selectLetter first app).
Proof.
  split; [apply selectLetter_answered|].
  intros first second app.
  destruct (selectLetter first app) as [app1| |] eqn:H1; [|done..]. simpl.
  destruct (selectLetter_sets_isAnswered _ _ _ H1) as (gs1 & Hgs1 & Ha1).
  by apply (selectLetter_answered second app1 gs1).
Qed.

Lemma selectLetter_once_witness :
  selectLetter "A"
    (setGame (Some (withRound (Some (simpleWord "cat")) true 4
                      (roundOn (simpleWord "cat")))) (newApp [])) =
  Done (setGame (Some (withRound (Some (simpleWord "cat")) true 4
                         (roundOn (simpleWord "cat")))) (newApp [])).
Proof.
  apply (proj1 selectLetter_once "A"
           (setGame (Some (withRound (Some (simpleWord "cat")) true 4
                             (roundOn (simpleWord "cat")))) (newApp []))
           (withRound (Some (simpleWord "cat")) true 4
              (roundOn (simpleWord "cat")))).
  - reflexivity.
  - reflexivity.
Defined.

(** One tick of a live interval while more than a second is left. *)
Lemma tick_counting id q s c F t app :
  (1 < t)%Z → counting id q s c F t app →
  ∃ app1, tick id app = Done app1 ∧ counting id q s c F (t - 1) app1.
Proof.
  intros Ht (gs & Hgs & Ha & Htl & Hq & Hs & Hc & Hid & Hto & HF).
  unfold tick, countdown. rewrite bool_decide_eq_true_2 by done.
  rewrite Hgs. cbn [timeLeft withRound].
  rewrite (proj2 (Z.leb_gt _ _)) by lia.
  eexists. split; [done|]. eexists. split; [done|].
  simpl. rewrite feedbacks_snoc. simpl. rewrite app_nil_r.
  split_and!; [done|congruence|done..].
Qed.

(** The tick that brings the countdown to 0. *)
Lemma tick_expires id q s c F app :
  counting id q s c F 1 app →
  ∃ app1, tick id app = Done app1 ∧ timedOut id q s c F 0 app1.
Proof.
  intros (gs & Hgs & Ha & Htl & Hq & Hs & Hc & Hid & Hto & HF).
  unfold tick, countdown. rewrite bool_decide_eq_true_2 by done.
  rewrite Hgs. cbn [timeLeft withRound]. rewrite Htl. simpl.
  unfold timeUp. simpl. rewrite Ha.
  eexists. split; [done|]. eexists. split; [done|].
  simpl. unfold showFeedback. simpl.
  rewrite !feedbacks_snoc. simpl. rewrite app_nil_r, Hto, Hc, HF.
  split_and!; done.
Qed.

(** A tick after the time-up: the display goes on counting, nothing else
    happens. *)
Lemma tick_timedOut id q s c F k app :
  timedOut id q s c F k app →
  ∃ app1, tick id app = Done app1 ∧ timedOut id q s c F (S k) app1.
Proof.
  intros (gs & Hgs & Ha & Htl & Hq & Hs & Hc & Hid & Hto & HF).
  unfold tick, countdown. rewrite bool_decide_eq_true_2 by done.
  rewrite Hgs. cbn [timeLeft withRound].
  rewrite (proj2 (Z.leb_le _ _)) by lia.
  unfold timeUp. simpl. rewrite Ha.
  eexists. split; [done|]. eexists. split; [done|].
  simpl. rewrite feedbacks_snoc. simpl. rewrite app_nil_r.
  split_and!; [done|lia|done..].
Qed.

Lemma ticks_counting id q s c F t app m :
  (Z.of_nat m < t)%Z → counting id q s c F t app →
  ∃ app1, ticks m id app = Done app1 ∧ counting id q s c F (t - Z.of_nat m) app1.
Proof.
  revert t app. induction m as [|m IH]; intros t app Hm Hc.
  - exists app. split; [done|]. by rewrite Z.sub_0_r.
  - destruct (tick_counting id q s c F t app ltac:(lia) Hc) as (app1 & Ht & Hc1).
    destruct (IH (t - 1)%Z app1 ltac:(lia) Hc1) as (app2 & Hts & Hc2).
    exists app2. cbn [ticks]. rewrite Ht. simpl. split; [done|].
    by replace (t - Z.of_nat (S m))%Z with (t - 1 - Z.of_nat m)%Z by lia.
Qed.

Lemma ticks_timedOut id q s c F k app m :
  timedOut id q s c F k app →
  ∃ app1, ticks m id app = Done app1 ∧ timedOut id q s c F (k + m) app1.
Proof.
  revert k app. induction m as [|m IH]; intros k app Hk.
  - exists app. split; [done|]. by rewrite Nat.add_0_r.
  - destruct (tick_timedOut id q s c F k app Hk) as (app1 & Ht & Hk1).
    destruct (IH (S k) app1 Hk1) as (app2 & Hts & Hk2).
    exists app2. cbn [ticks]. rewrite Ht. simpl. split; [done|].
    by replace (k + S m)%nat with (S k + m)%nat by lia.
Qed.

Lemma ticks_add n m id app :
  ticks (n + m) id app = andThen (ticks n id app) (ticks m id).
Proof.
  revert app. induction n as [|n IH]; intros app; [done|].
  cbn [Nat.add ticks]. destruct (tick id app) as [app1| |]; simpl; auto.
Qed.

(** The countdown from [t > 0]: [t] ticks reach the time-up, and any [k]
    further ticks stay there. *)
Lemma ticks_expire id q s c F t app k :
  (0 < t)%Z → counting id q s c F t app →
  ∃ app1, ticks (Z.to_nat t + k) id app = Done app1 ∧
          timedOut id q s c F k app1.
Proof.
  intros Ht Hc.
  replace (Z.to_nat t + k)%nat with (Z.to_nat (t - 1) + (1 + k))%nat by lia.
  destruct (ticks_counting id q s c F t app (Z.to_nat (t - 1)) ltac:(lia) Hc)
    as (app1 & Hts & Hc1).
  replace (t - Z.of_nat (Z.to_nat (t - 1)))%Z with 1%Z in Hc1 by lia.
  destruct (tick_expires id q s c F app1 Hc1) as (app2 & Ht2 & Hk2).
  destruct (ticks_timedOut id q s c F 0 app2 k Hk2) as (app3 & Hts3 & Hk3).
  exists app3. rewrite ticks_add, Hts. cbn [andThen Nat.add ticks].
  rewrite Ht2. cbn [andThen]. by rewrite Hts3.
Qed.

Lemma endGame_frame app gs :
  gameState app = Some gs →
  ∃ app', endGame app = Done app' ∧ gameState app' = Some gs ∧
          timeouts app' = timeouts app ∧
          feedbacks (log app') = feedbacks (log app).
Proof.
  intros Hgs. unfold endGame. rewrite Hgs. eexists. split; [done|].
  destruct (timer gs); simpl; rewrite feedbacks_snoc, app_nil_r; done.
Qed.

(** [startNewGameRound] keeps the question number, the score, the pending
    callbacks and the feedback history, whether it ends the game, starts a
    round, or stops at a missing word. *)
Lemma startNewGameRound_frame fuel app gs :
  gameState app = Some gs →
  ∃ app' gs',
    stateOf (startNewGameRound fuel app) = Some app' ∧
    gameState app' = Some gs' ∧
    currentQuestion gs' = currentQuestion gs ∧ score gs' = score gs ∧
    timeouts app' = timeouts app ∧
    feedbacks (log app') = feedbacks (log app).
Proof.
  intros Hgs. unfold startNewGameRound. rewrite Hgs.
  destruct (totalQuestions gs <=? currentQuestion gs)%nat.
  { destruct (endGame_frame app gs Hgs) as (app' & -> & ? & ? & ?).
    by exists app', gs. }
  destruct (gameWords gs !! currentQuestion gs) as [cw|] eqn:Hcw.
  - destruct (generateWordPuzzle_spec fuel
                (withRound (Some cw) false 10 gs) cw (random app) eq_refl)
      as (gs2 & g' & -> & _ & _ & _ & Hq & Hs & _ & _ & Ht & _ & Hw & _).
    simpl in Hq, Hs, Ht, Hw.
    unfold updateGameUI, startTimer, speakCurrentGameWord. simpl.
    destruct (timer gs2); simpl; rewrite Hw; simpl;
      eexists _, _; (split; [done|]); simpl;
      rewrite !feedbacks_snoc; simpl; rewrite !app_nil_r; done.
  - rewrite generateWordPuzzle_no_word by done. simpl.
    eexists _, _. split; [done|]. done.
Qed.

(** A round that [startNewGameRound] starts on a word is in progress: not
    answered, 10 seconds left, a live interval, nothing new scheduled. *)
Lemma startNewGameRound_counting fuel app gs cw :
  gameState app = Some gs →
  (currentQuestion gs < totalQuestions gs)%nat →
  gameWords gs !! currentQuestion gs = Some cw →
  ∃ app1 gs1 id,
    startNewGameRound fuel app = Done app1 ∧
    gameState app1 = Some gs1 ∧
    currentWord gs1 = Some cw ∧
    isAnswered gs1 = false ∧ timeLeft gs1 = 10%Z ∧
    timer gs1 = Some id ∧ id ∈ intervals app1 ∧
    timeouts app1 = timeouts app.
Proof.
  intros Hgs Hq Hcw. unfold startNewGameRound. rewrite Hgs.
  rewrite (proj2 (Nat.leb_gt _ _)) by done. rewrite Hcw.
  destruct (generateWordPuzzle_spec fuel
              (withRound (Some cw) false 10 gs) cw (random app) eq_refl)
    as (gs2 & g' & -> & _ & _ & _ & _ & _ & _ & Htl & Ht & _ & Hw & Ha).
  simpl in Htl, Ht, Hw, Ha.
  unfold updateGameUI, startTimer, speakCurrentGameWord. simpl.
  destruct (timer gs2); simpl; rewrite Hw; simpl;
    eexists _, _, _; (split; [done|]); simpl;
    (split_and!; [done..| |done]);
    apply elem_of_app; right; apply list_elem_of_here.
Qed.

(** The pending callback of a timed-out round: the question number goes up
    by one, once; the score and the feedback history stay. *)
Lemma fireTimeout_advances fuel app gs d :
  gameState app = Some gs → timeouts app = [(d, CbNextQuestion)] →
  ∃ app' gs',
    stateOf (fireTimeout fuel app) = Some app' ∧
    gameState app' = Some gs' ∧
    currentQuestion gs' = (currentQuestion gs + 1)%nat ∧ score gs' = score gs ∧
    timeouts app' = [] ∧
    feedbacks (log app') = feedbacks (log app).
Proof.
  intros Hgs Hto. unfold fireTimeout, nextQuestion. rewrite Hto. simpl.
  rewrite Hgs.
  destruct (startNewGameRound_frame fuel
              (setGame (Some (withProgress (currentQuestion gs + 1) (score gs) gs))
                 (setTimers (nextTimerId app) (intervals app) [] app))
              (withProgress (currentQuestion gs + 1) (score gs) gs) eq_refl)
    as (app' & gs' & ? & ? & ? & ? & ? & ?).
  by exists app', gs'.
Qed.

(** C5. In a round with a live countdown, no answer and a positive number
    of seconds left: while the countdown has not reached 0, no feedback is
    shown and nothing is scheduled; once it reaches 0, and however many
    times the interval fires after that ([k] further ticks), the log holds
    exactly one more feedback event, the time-up one naming the correct
    answer, exactly one advance is pending, and the question number has not
    moved; the pending callback then advances the question number by one
    and leaves nothing pending, adding no feedback. *)
Theorem timeUp_fires_once fuel id app gs k :
  gameState app = Some gs →
  isAnswered gs = false →
  (0 < timeLeft gs)%Z →
  id ∈ intervals app →
  timeouts app = [] →
  (∀ m, (Z.of_nat m < timeLeft gs)%Z →
     ∃ app0 gs0,
       ticks m id app = Done app0 ∧ gameState app0 = Some gs0 ∧
       isAnswered gs0 = false ∧ currentQuestion gs0 = currentQuestion gs ∧
       timeouts app0 = [] ∧ feedbacks (log app0) = feedbacks (log app)) ∧
  ∃ app1 gs1,
    ticks (Z.to_nat (timeLeft gs) + k) id app = Done app1 ∧
    gameState app1 = Some gs1 ∧
    isAnswered gs1 = true ∧
    feedbacks (log app1) =
      feedbacks (log app) ++ [EvFeedback false (MsgTimeUp (correctAnswer gs))] ∧
    timeouts app1 = [(2000%nat, CbNextQuestion)] ∧
    currentQuestion gs1 = currentQuestion gs ∧ score gs1 = score gs ∧
    ∃ app2 gs2,
      stateOf (fireTimeout fuel app1) = Some app2 ∧
      gameState app2 = Some gs2 ∧
      currentQuestion gs2 = (currentQuestion gs + 1)%nat ∧
      score gs2 = score gs ∧
      timeouts app2 = [] ∧
      feedbacks (log app2) = feedbacks (log app1).
Proof.
  intros Hgs Ha Ht Hid Hto.
  assert (counting id (currentQuestion gs) (score gs) (correctAnswer gs)
            (feedbacks (log app)) (timeLeft gs) app) as Hc.
  { exists gs. split_and!; done. }
  split.
  - intros m Hm.
    destruct (ticks_counting _ _ _ _ _ _ _ m Hm Hc)
      as (app0 & Hts & gs0 & ? & ? & ? & ? & ? & ? & ? & ? & ?).
    exists app0, gs0. split_and!; done.
  - destruct (ticks_expire _ _ _ _ _ _ _ k Ht Hc)
      as (app1 & Hts & gs1 & Hgs1 & Ha1 & Ht1 & Hq1 & Hs1 & Hc1 & Hid1 & Hto1 & HF1).
    exists app1, gs1. split_and!; [done..|].
    destruct (fireTimeout_advances fuel app1 gs1 _ Hgs1 Hto1)
      as (app2 & gs2 & ? & ? & ? & ? & ? & ?).
    exists app2, gs2. split_and!; [done..|congruence|congruence|done|done].
Qed.

Lemma timeUp_fires_once_witness :
  ∃ app1,
    ticks 12 1
      (setGame (Some (withTimer (Some 1%nat)
                        (withRound (Some (simpleWord "cat")) false 10
                           (roundOn (simpleWord "cat")))))
         (setTimers 1 [1%nat] [] (newApp []))) = Done app1 ∧
    feedbacks (log app1) = [EvFeedback false (MsgTimeUp (JStr EmptyString))] ∧
    timeouts app1 = [(2000%nat, CbNextQuestion)].
Proof.
  destruct (timeUp_fires_once 0 1
              (setGame (Some (withTimer (Some 1%nat)
                                (withRound (Some (simpleWord "cat")) false 10
                                   (roundOn (simpleWord "cat")))))
                 (setTimers 1 [1%nat] [] (newApp [])))
              (withTimer (Some 1%nat)
                 (withRound (Some (simpleWord "cat")) false 10
                    (roundOn (simpleWord "cat"))))
              2 eq_refl eq_refl ltac:(simpl; lia)
              ltac:(apply list_elem_of_here) eq_refl)
    as [_ (app1 & gs1 & Hts & _ & _ & HF & Hto & _)].
  exists app1. split; [exact Hts|]. split; [exact HF|exact Hto].
Defined.

(** ** More on the puzzle generator *)

Lemma append_cons c s t : String c s +:+ t = String c (s +:+ t).
Proof. reflexivity. Qed.

Lemma append_nil t : EmptyString +:+ t = t.
Proof. reflexivity. Qed.

Lemma append_length s t :
  String.length (s +:+ t) = (String.length s + String.length t)%nat.
Proof. induction s as [|c s IH]; [done|]. rewrite append_cons. simpl. lia. Qed.

Lemma take_drop i w : Js.take i w +:+ Js.drop i w = w.
Proof.
  revert w. induction i as [|i IH]; intros [|c w]; try done.
  simpl. by rewrite append_cons, IH.
Qed.

Lemma take_length i w :
  (i ≤ String.length w)%nat → String.length (Js.take i w) = i.
Proof.
  revert w. induction i as [|i IH]; intros [|c w] Hi; simpl in *; try done; try lia.
  rewrite IH; lia.
Qed.

Lemma drop_length i w :
  String.length (Js.drop i w) = (String.length w - i)%nat.
Proof.
  revert w. induction i as [|i IH]; intros [|c w]; simpl; done.
Qed.

Lemma drop_drop i j w : Js.drop j (Js.drop i w) = Js.drop (i + j) w.
Proof.
  revert w. induction i as [|i IH]; intros w.
  - by rewrite drop_0.
  - destruct w as [|c w]; simpl; [by destruct j|]. apply IH.
Qed.

Lemma repeat_length s n :
  String.length (Js.repeat s n) = (n * String.length s)%nat.
Proof.
  induction n as [|n IH]; [done|]. simpl. rewrite append_length. lia.
Qed.

(** A prefix can be split off. *)
Lemma prefix_split a s :
  String.prefix a s = true → s = a +:+ Js.drop (String.length a) s.
Proof.
  revert s. induction a as [|c a IH]; intros s Hp.
  - by rewrite drop_0.
  - destruct s as [|c' s]; [done|]. simpl in Hp.
    destruct (ascii_dec c c') as [->|]; [|done].
    rewrite append_cons. simpl. f_equal. by apply IH.
Qed.

Lemma prefix_length a s :
  String.prefix a s = true → (String.length a ≤ String.length s)%nat.
Proof.
  intros Hp. rewrite (prefix_split a s Hp), append_length. lia.
Qed.

(** Where a pattern occurs, the word is: what stands before it, the
    pattern, what stands after it. *)
Lemma occursAt_split a i w :
  occursAt a i w →
  (i + String.length a ≤ String.length w)%nat ∧
  Js.take i w +:+ a +:+ Js.drop (i + String.length a) w = w.
Proof.
  intros [Hi Hp]. split.
  - pose proof (prefix_length _ _ Hp) as Hl. rewrite drop_length in Hl. lia.
  - rewrite <- drop_drop, <- (prefix_split a _ Hp). apply take_drop.
Qed.

Lemma masked_length i n w :
  (i + n ≤ String.length w)%nat →
  String.length (masked i n w) = String.length w.
Proof.
  intros Hi. unfold masked.
  rewrite !append_length, take_length, repeat_length, drop_length by lia.
  simpl. lia.
Qed.

Lemma charAt_occursAt p w :
  (p < String.length w)%nat →
  ∃ c, Js.charAt p w = JStr (String c EmptyString) ∧
       occursAt (String c EmptyString) p w.
Proof.
  revert w. induction p as [|p IH]; intros [|c w] Hp; simpl in Hp; try lia.
  - exists c. split; [done|]. apply occursAt_0. simpl.
    destruct (ascii_dec c c); [by destruct w|done].
  - destruct (IH w ltac:(lia)) as (c' & Hc & Ho). exists c'.
    split; [exact Hc|]. by apply occursAt_S.
Qed.

Lemma randomAboveHalf_position g :
  let position := if (randomAboveHalf g).1 then 1%nat else 2%nat in
  (1 ≤ position ≤ 2)%nat.
Proof. simpl. destruct (randomAboveHalf g).1; lia. Qed.

(** Whatever branch [maskWord] takes on a word of at least 3 characters,
    the answer is a piece of the word and the display is the word with
    that piece masked. *)
Lemma maskWord_piece w g :
  (3 ≤ String.length w)%nat →
  ∃ a i,
    (maskWord w g).1 = (JStr a, masked i (String.length a) w) ∧
    (1 ≤ String.length a ≤ 2)%nat ∧
    occursAt a i w.
Proof.
  intros Hlen. unfold maskWord.
  destruct (String.length w <=? 3)%nat eqn:H3.
  { pose proof (randomAboveHalf_position g) as Hpos. simpl in Hpos.
    destruct (randomAboveHalf g) as [above g1]. simpl in Hpos.
    destruct (charAt_occursAt (if above then 1%nat else 2%nat) w ltac:(lia))
      as (c & Hc & Ho).
    exists (String c EmptyString), (if above then 1%nat else 2%nat).
    simpl. rewrite Hc, maskLetter_masked. split_and!; [done|lia|lia|done]. }
  destruct (findPattern digraphs w) as [[d i]|] eqn:Hd.
  { exists d, i. simpl. rewrite maskAt_masked.
    pose proof (findPattern_elem _ _ _ _ Hd) as Hin.
    rewrite (proj1 (Forall_forall _ _) patterns_two_letters d)
      by (apply elem_of_app; by left).
    apply findPattern_Some in Hd as (_ & _ & _ & _ & Hi).
    apply indexOf_Some in Hi as [Ho _]. split_and!; [done|lia|lia|done]. }
  destruct (findPattern blends w) as [[d i]|] eqn:Hb.
  { exists d, i. simpl. rewrite maskAt_masked.
    pose proof (findPattern_elem _ _ _ _ Hb) as Hin.
    rewrite (proj1 (Forall_forall _ _) patterns_two_letters d)
      by (apply elem_of_app; by right).
    apply findPattern_Some in Hb as (_ & _ & _ & _ & Hi).
    apply indexOf_Some in Hi as [Ho _]. split_and!; [done|lia|lia|done]. }
  pose proof (randomIndex_lt (String.length w) g ltac:(lia)) as Hp.
  destruct (randomIndex (String.length w) g) as [position g1]. simpl in Hp.
  destruct (charAt_occursAt position w Hp) as (c & Hc & Ho).
  exists (String c EmptyString), position.
  simpl. rewrite Hc, maskLetter_masked. split_and!; [done|lia|lia|done].
Qed.

(** Putting the correct answer back where the placeholders are restores
    the word: for every current word of at least 3 characters the stored
    answer [a] is the piece of the upper-cased word at some index [i], the
    display is the word with exactly that piece replaced by as many
    placeholders, and it has the length of the word. *)
Theorem generateWordPuzzle_restores fuel gs cw g :
  currentWord gs = Some cw →
  (3 ≤ String.length (Js.toUpperCase (word cw)))%nat →
  ∃ gs' g' a i,
    generateWordPuzzle fuel gs g = Ok (gs', g') ∧
    correctAnswer gs' = JStr a ∧
    (1 ≤ String.length a ≤ 2)%nat ∧
    (i + String.length a ≤ String.length (Js.toUpperCase (word cw)))%nat ∧
    displayWord gs' =
      JStr (Js.take i (Js.toUpperCase (word cw)) +:+
            Js.repeat "_" (String.length a) +:+
            Js.drop (i + String.length a) (Js.toUpperCase (word cw))) ∧
    Js.take i (Js.toUpperCase (word cw)) +:+ a +:+
      Js.drop (i + String.length a) (Js.toUpperCase (word cw)) =
      Js.toUpperCase (word cw) ∧
    String.length (Js.toString (displayWord gs')) =
      String.length (Js.toUpperCase (word cw)).
Proof.
  intros Hcw Hlen.
  destruct (maskWord_piece _ g Hlen) as (a & i & Hmask & Ha & Ho).
  destruct (generateWordPuzzle_spec fuel gs cw g Hcw)
    as (gs' & g' & Hgen & Hans & Hdisp & _).
  destruct (maskWord (Js.toUpperCase (word cw)) g) as [[m d] g1].
  simpl in Hmask, Hans, Hdisp. injection Hmask as -> ->.
  destruct (occursAt_split _ _ _ Ho) as [Hin Hsplit].
  exists gs', g', a, i. rewrite Hdisp. simpl.
  split_and!; [done|done|lia|lia|done|done|done|by apply masked_length].
Qed.

Lemma generateWordPuzzle_restores_witness :
  ∃ gs' g' a i,
    generateWordPuzzle 0 (roundOn (simpleWord "nest")) [] = Ok (gs', g') ∧
    correctAnswer gs' = JStr a ∧
    displayWord gs' = JStr (Js.take i "NEST" +:+
                            Js.repeat "_" (String.length a) +:+
                            Js.drop (i + String.length a) "NEST") ∧
    Js.take i "NEST" +:+ a +:+ Js.drop (i + String.length a) "NEST" = "NEST".
Proof.
  destruct (generateWordPuzzle_restores 0 (roundOn (simpleWord "nest"))
              (simpleWord "nest") [] eq_refl ltac:(simpl; lia))
    as (gs' & g' & a & i & Hgen & Hans & _ & _ & Hdisp & Hw & _).
  exists gs', g', a, i. split; [exact Hgen|]. split; [exact Hans|].
  split; [exact Hdisp|exact Hw].
Defined.

(** The blend branch of [maskWord]: reached only when no digraph occurs. *)
Lemma maskWord_blend w g :
  (3 < String.length w)%nat →
  (∀ d j, d ∈ digraphs → ¬ occursAt d j w) →
  (∃ b i, b ∈ blends ∧ occursAt b i w) →
  ∃ b i l1 l2,
    blends = l1 ++ b :: l2 ∧
    (∀ b' j, b' ∈ l1 → ¬ occursAt b' j w) ∧
    occursAt b i w ∧
    (∀ j, (j < i)%nat → ¬ occursAt b j w) ∧
    maskWord w g = (JStr b, masked i 2 w, g).
Proof.
  intros Hlen Hnod (b0 & i0 & Hb0 & Ho0).
  assert (findPattern digraphs w = None) as Hd.
  { destruct (findPattern digraphs w) as [[d i]|] eqn:Hd; [|done]. exfalso.
    pose proof (findPattern_elem _ _ _ _ Hd) as Hin.
    apply findPattern_Some in Hd as (_ & _ & _ & _ & Hi).
    apply indexOf_Some in Hi as [Ho _]. by apply (Hnod d i). }
  destruct (findPattern_occurs _ _ _ _ Hb0 Ho0) as [[b i] Hf].
  destruct (findPattern_Some _ _ _ _ Hf) as (l1 & l2 & Hsplit & Hl1 & Hi).
  destruct (indexOf_Some _ _ _ Hi) as [Ho Hmin].
  exists b, i, l1, l2. split_and!; [done| |done|done|].
  - intros b' j Hb'. apply indexOf_None. auto.
  - unfold maskWord.
    rewrite (proj2 (Nat.leb_gt _ _)) by lia. rewrite Hd, Hf, maskAt_masked.
    rewrite (proj1 (Forall_forall _ _) patterns_two_letters b); [done|].
    apply elem_of_app. right. rewrite Hsplit.
    apply elem_of_app. right. apply list_elem_of_here.
Qed.

(** For a word of more than 3 characters in which none of the digraphs
    occurs but one of the blends ST, SP, SK, SM, SN, SL, SW, SC does,
    [generateWordPuzzle] masks a whole blend: the first blend of the list,
    in that order, that occurs anywhere in the word, at its leftmost
    occurrence. *)
Theorem generateWordPuzzle_blend fuel gs cw g :
  currentWord gs = Some cw →
  (3 < String.length (Js.toUpperCase (word cw)))%nat →
  (∀ d j, d ∈ digraphs → ¬ occursAt d j (Js.toUpperCase (word cw))) →
  (∃ b i, b ∈ blends ∧ occursAt b i (Js.toUpperCase (word cw))) →
  ∃ b i l1 l2 gs' g',
    blends = l1 ++ b :: l2 ∧
    (∀ b' j, b' ∈ l1 → ¬ occursAt b' j (Js.toUpperCase (word cw))) ∧
    occursAt b i (Js.toUpperCase (word cw)) ∧
    (∀ j, (j < i)%nat → ¬ occursAt b j (Js.toUpperCase (word cw))) ∧
    generateWordPuzzle fuel gs g = Ok (gs', g') ∧
    correctAnswer gs' = JStr b ∧
    displayWord gs' = JStr (masked i 2 (Js.toUpperCase (word cw))).
Proof.
  intros Hcw Hlen Hnod Hocc.
  destruct (maskWord_blend _ g Hlen Hnod Hocc)
    as (b & i & l1 & l2 & Hsplit & Hl1 & Ho & Hmin & Hmask).
  destruct (generateWordPuzzle_spec fuel gs cw g Hcw)
    as (gs' & g' & Hgen & Hans & Hdisp & _).
  rewrite Hmask in Hans, Hdisp.
  by exists b, i, l1, l2, gs', g'.
Qed.

Lemma no_digraph_in_NEST d j : d ∈ digraphs → ¬ occursAt d j "NEST".
Proof.
  intros Hd. apply indexOf_None. revert d Hd. apply Forall_forall.
  apply (bool_decide_unpack _). by vm_compute.
Qed.

Lemma generateWordPuzzle_blend_witness :
  ∃ b i gs' g',
    generateWordPuzzle 0 (roundOn (simpleWord "nest")) [] = Ok (gs', g') ∧
    correctAnswer gs' = JStr b ∧ b ∈ blends ∧
    displayWord gs' = JStr (masked i 2 "NEST").
Proof.
  destruct (generateWordPuzzle_blend 0 (roundOn (simpleWord "nest"))
              (simpleWord "nest") [] eq_refl ltac:(simpl; lia)
              no_digraph_in_NEST
              ltac:(exists "ST", 2%nat; split;
                      [apply (bool_decide_unpack _); vm_compute; reflexivity
                      |split; [simpl; lia|reflexivity]]))
    as (b & i & l1 & l2 & gs' & g' & Hs & _ & _ & _ & Hgen & Hans & Hdisp).
  exists b, i, gs', g'. split; [exact Hgen|]. split; [exact Hans|].
  split; [|exact Hdisp].
  rewrite Hs. apply elem_of_app. right. apply list_elem_of_here.
Defined.

(** With three candidates that are new and pairwise different, the drawing
    loop pushes all of them: what it builds is the options it started
    from plus the candidates. *)
Lemma drawLoop_all n options wrong g :
  length wrong = n → NoDup wrong → (∀ x, x ∈ wrong → x ∉ options) →
  (length options + n ≤ 4)%nat →
  (drawLoop n options wrong g).1.1 ≡ₚ options ++ wrong.
Proof.
  revert options wrong g.
  induction n as [|n IH]; intros options wrong g Hlen Hnd Hnew Hle.
  { destruct wrong; [|done]. simpl. by rewrite app_nil_r. }
  cbn [drawLoop].
  rewrite (proj2 (Nat.ltb_lt _ _)) by lia.
  rewrite (proj2 (Nat.ltb_lt _ _)) by lia. simpl.
  pose proof (randomIndex_lt (length wrong) g ltac:(lia)) as Hi.
  destruct (randomIndex (length wrong) g) as [i g1]. simpl in Hi.
  unfold spliceOne.
  destruct (lookup_lt_is_Some_2 wrong i Hi) as [x Hx]. rewrite Hx. simpl.
  pose proof (delete_Permutation _ _ _ Hx) as Hperm.
  assert (NoDup (x :: delete i wrong)) as Hnd' by by rewrite <- Hperm.
  apply NoDup_cons in Hnd' as [Hxd Hdd].
  assert (x ∈ wrong) as Hxw by (rewrite Hperm; apply list_elem_of_here).
  rewrite (pushNew_fresh x options) by auto.
  rewrite IH.
  - rewrite <- app_assoc. simpl. by rewrite <- Hperm.
  - rewrite length_delete by eauto. lia.
  - done.
  - intros y Hy [Hyo| ->%list_elem_of_singleton]%elem_of_app; [|done].
    apply (Hnew y); [|done]. rewrite Hperm. by apply list_elem_of_further.
  - rewrite length_app. simpl. lia.
Qed.

Lemma generateLetterOptions_perm fuel c g :
  property (Js.toString c) objectPrototype = None →
  ∃ options g' wrong,
    generateLetterOptions fuel c g = Ok (options, g') ∧
    generateSimilarLetters c = Letters wrong ∧
    options ≡ₚ c :: wrong.
Proof.
  intros Hown.
  destruct (generateSimilarLetters_spec c Hown) as (wrong & Hw & Hlen & Hnd & Hc).
  unfold generateLetterOptions. rewrite Hw, Hlen.
  pose proof (drawLoop_all 3 [c] wrong g Hlen Hnd) as Hall.
  pose proof (drawLoop_length 3 [c] wrong g Hlen Hnd) as Hl.
  destruct (drawLoop 3 [c] wrong g) as [[options1 rest] g1].
  simpl in Hall, Hl.
  assert (∀ x, x ∈ wrong → x ∉ [c]) as Hnew.
  { intros x Hx ->%list_elem_of_singleton. done. }
  unfold fillAndShuffle. rewrite fillLoop_full by (rewrite Hl; [lia|done|lia]).
  pose proof (shuffleArray_Permutation options1 g1) as Hp.
  destruct (shuffleArray options1 g1) as [options g']. simpl in Hp.
  exists options, g', wrong. split; [done|]. split; [done|].
  rewrite Hp. apply Hall; [done|simpl; lia].
Qed.

(** The options of every generated puzzle are the correct answer and the
    three letters [generateSimilarLetters] gives for it (its row of the
    table, or X, Y, Z when it has none), in some order: the loop that
    fills up with random letters never contributes. *)
Theorem generateWordPuzzle_distractors fuel gs cw g :
  currentWord gs = Some cw →
  ∃ gs' g' wrong,
    generateWordPuzzle fuel gs g = Ok (gs', g') ∧
    generateSimilarLetters (correctAnswer gs') = Letters wrong ∧
    length wrong = 3%nat ∧
    letterOptions gs' ≡ₚ correctAnswer gs' :: wrong.
Proof.
  intros Hcw. unfold generateWordPuzzle. rewrite Hcw.
  pose proof (maskWord_own (Js.toUpperCase (word cw)) g) as Hown.
  destruct (maskWord (Js.toUpperCase (word cw)) g) as [[missingPart display] g1].
  simpl in Hown.
  destruct (generateLetterOptions_perm fuel missingPart g1 Hown)
    as (options & g' & wrong & -> & Hw & Hperm).
  destruct (generateSimilarLetters_spec missingPart Hown)
    as (wrong' & Hw' & Hlen & _).
  rewrite Hw in Hw'. injection Hw' as <-.
  eexists _, _, wrong. split; [done|]. simpl. done.
Qed.

Lemma generateWordPuzzle_distractors_witness :
  ∃ gs' g' wrong,
    generateWordPuzzle 0 (roundOn (simpleWord "ship")) [] = Ok (gs', g') ∧
    generateSimilarLetters (correctAnswer gs') = Letters wrong ∧
    letterOptions gs' ≡ₚ correctAnswer gs' :: wrong.
Proof.
  destruct (generateWordPuzzle_distractors 0 (roundOn (simpleWord "ship"))
              (simpleWord "ship") [] eq_refl)
    as (gs' & g' & wrong & Hgen & Hw & _ & Hperm).
  exists gs', g', wrong. split; [exact Hgen|]. split; [exact Hw|exact Hperm].
Defined.

(** ** Every arrangement is a possible shuffle *)

Section ShuffleReach.
Context {A : Type}.
Implicit Types p s l : list A.

(** Swapping the last element of the part still to shuffle with the
    element at [j]: the chosen element lands right behind a part that is
    one shorter. *)
Lemma swap_last p0 z s j y :
  (p0 ++ [z]) !! j = Some y →
  ∃ p1, swap (length p0) j (p0 ++ z :: s) = p1 ++ y :: s ∧
        length p1 = length p0 ∧ p1 ++ [y] ≡ₚ p0 ++ [z].
Proof.
  intros Hj. unfold swap.
  rewrite (list_lookup_middle p0 s z (length p0)) by done.
  destruct (decide (j < length p0)) as [Hlt|Hge].
  - rewrite lookup_app_l in Hj by done.
    rewrite (lookup_app_l p0 (z :: s)) by done. rewrite Hj.
    rewrite (insert_app_r_alt p0 (z :: s)) by lia. rewrite Nat.sub_diag. simpl.
    rewrite insert_app_l by done.
    exists (<[j:=z]> p0). split_and!; [done|by rewrite length_insert|].
    pose proof (Permutation_insert_swap (p0 ++ [z]) (length p0) j z y) as Hp.
    rewrite (list_lookup_middle p0 [] z (length p0)) in Hp by done.
    rewrite (lookup_app_l p0 [z]) in Hp by done.
    specialize (Hp eq_refl Hj).
    rewrite (insert_app_r_alt p0 [z]) in Hp by lia.
    rewrite Nat.sub_diag in Hp. simpl in Hp.
    by rewrite insert_app_l in Hp by done.
  - apply lookup_lt_Some in Hj as Hj'. rewrite length_app in Hj'. simpl in Hj'.
    assert (j = length p0) as -> by lia.
    rewrite (list_lookup_middle p0 [] z (length p0)) in Hj by done.
    injection Hj as <-.
    rewrite (list_lookup_middle p0 s z (length p0)) by done.
    rewrite list_insert_insert_eq.
    rewrite (insert_app_r_alt p0 (z :: s)) by lia. rewrite Nat.sub_diag. simpl.
    by exists p0.
Qed.

Lemma shuffleLoop_reach i p s p' :
  length p = S i → p' ≡ₚ p →
  ∃ g, (shuffleLoop i (p ++ s) g).1 = p' ++ s.
Proof.
  revert p s p'. induction i as [|i IH]; intros p s p' Hlen Hperm.
  - destruct p as [|x [|??]]; simplify_eq/=.
    apply Permutation_singleton_r in Hperm as ->. by exists [].
  - destruct p as [|x0 p _] using rev_ind; [done|].
    rename p into p0. rename x0 into z.
    rewrite length_app in Hlen. simpl in Hlen.
    destruct p' as [|y q' _] using rev_ind.
    { apply Permutation_nil_l in Hperm. by destruct p0. }
    assert (y ∈ p0 ++ [z]) as Hy.
    { rewrite <- Hperm. apply elem_of_app. right. apply list_elem_of_here. }
    apply list_elem_of_lookup_1 in Hy as [j Hj].
    pose proof (lookup_lt_Some _ _ _ Hj) as Hjlt.
    rewrite length_app in Hjlt. simpl in Hjlt.
    destruct (swap_last p0 z s j y Hj) as (p1 & Hswap & Hl1 & Hp1).
    destruct (IH p1 (y :: s) q') as [g1 Hg1]; [lia| |].
    { apply (Permutation_app_inv_r [y]). by rewrite Hp1, Hperm. }
    exists (j :: g1). cbn [shuffleLoop].
    change (randomIndex (S i + 1) (j :: g1)) with (j `mod` (S i + 1), g1).
    rewrite Nat.mod_small by lia.
    replace (S i) with (length p0) by lia.
    rewrite <- app_assoc. simpl. rewrite Hswap, Hg1.
    by rewrite <- app_assoc.
Qed.

End ShuffleReach.

(** Every rearrangement of the input is the result of [shuffleArray] for
    some sequence of random draws: the shuffle leaves no order out. *)
Theorem shuffleArray_reaches_all {A} (l l' : list A) :
  l' ≡ₚ l → ∃ g, (shuffleArray l g).1 = l'.
Proof.
  intros Hperm. unfold shuffleArray.
  destruct l as [|x l].
  { apply Permutation_nil_r in Hperm as ->. by exists []. }
  destruct (shuffleLoop_reach (length l) (x :: l) [] l' eq_refl Hperm) as [g Hg].
  exists g. simpl. rewrite Nat.sub_0_r. rewrite !app_nil_r in Hg. exact Hg.
Qed.

Lemma shuffleArray_reaches_all_witness :
  ∃ g, (shuffleArray ["a"; "b"; "c"] g).1 = ["c"; "a"; "b"].
Proof.
  apply (shuffleArray_reaches_all ["a"; "b"; "c"] ["c"; "a"; "b"]).
  apply (Permutation_cons_append ["a"; "b"] "c").
Defined.

(** ** More on the round state machine *)

Lemma ticks_dead n id app : id ∉ intervals app → ticks n id app = Done app.
Proof.
  intros Hid. induction n as [|n IH]; [done|].
  cbn [ticks]. unfold tick. rewrite bool_decide_eq_false_2 by done. exact IH.
Qed.

Lemma clearInterval_dead id app : id ∉ intervals (clearInterval (Some id) app).
Proof. simpl. intros [? _]%list_elem_of_filter. done. Qed.

(** An answer on a round that is not answered yet: the round becomes
    answered; the score goes up by one exactly when the letter is the
    correct answer; one feedback event is shown, a correct one or a wrong
    one naming the correct answer; the countdown of the round is cancelled,
    so no later firing of it changes anything (no time-up after an
    answer); exactly one advance is pending, and it moves the question
    number by one, keeping the score and adding no feedback. *)
Theorem selectLetter_answers fuel letter app gs id :
  gameState app = Some gs →
  isAnswered gs = false →
  timer gs = Some id →
  timeouts app = [] →
  ∃ app1 gs1,
    selectLetter letter app = Done app1 ∧
    gameState app1 = Some gs1 ∧
    isAnswered gs1 = true ∧
    currentQuestion gs1 = currentQuestion gs ∧
    score gs1 =
      (if decide (JStr letter = correctAnswer gs) then score gs + 1
       else score gs)%nat ∧
    feedbacks (log app1) =
      feedbacks (log app) ++
      [if decide (JStr letter = correctAnswer gs) then EvFeedback true MsgCorrect
       else EvFeedback false (MsgWrong (correctAnswer gs))] ∧
    timeouts app1 = [(2500%nat, CbNextQuestion)] ∧
    (id ∉ intervals app1) ∧
    (∀ n, ticks n id app1 = Done app1) ∧
    ∃ app2 gs2,
      stateOf (fireTimeout fuel app1) = Some app2 ∧
      gameState app2 = Some gs2 ∧
      currentQuestion gs2 = (currentQuestion gs + 1)%nat ∧
      score gs2 = score gs1 ∧
      timeouts app2 = [] ∧
      feedbacks (log app2) = feedbacks (log app1).
Proof.
  intros Hgs Ha Ht Hto.
  assert (∃ app1 gs1,
    selectLetter letter app = Done app1 ∧
    gameState app1 = Some gs1 ∧
    isAnswered gs1 = true ∧
    currentQuestion gs1 = currentQuestion gs ∧
    score gs1 =
      (if decide (JStr letter = correctAnswer gs) then score gs + 1
       else score gs)%nat ∧
    feedbacks (log app1) =
      feedbacks (log app) ++
      [if decide (JStr letter = correctAnswer gs) then EvFeedback true MsgCorrect
       else EvFeedback false (MsgWrong (correctAnswer gs))] ∧
    timeouts app1 = [(2500%nat, CbNextQuestion)] ∧
    id ∉ intervals app1) as (app1 & gs1 & Hsel & Hgs1 & Ha1 & Hq1 & Hs1 & HF1 & Hto1 & Hid1).
  { unfold selectLetter. rewrite Hgs, Ha. cbn [timer withRound]. rewrite Ht.
    pose proof (clearInterval_dead id
      (setGame (Some (withRound (currentWord gs) true (timeLeft gs) gs)) app))
      as Hdead.
    unfold playSound, showFeedback. cbn [correctAnswer withRound].
    destruct (decide (JStr letter = correctAnswer gs)) as [Heq|Hne].
    - rewrite bool_decide_eq_true_2 by done.
      destruct (audioContext app) eqn:Hau; simpl; rewrite Hau; simpl;
        eexists _, _; (split; [done|]); simpl;
        rewrite !feedbacks_snoc; simpl; rewrite ?app_nil_r, Hto;
        split_and!; done.
    - rewrite bool_decide_eq_false_2 by done.
      destruct (audioContext app) eqn:Hau; simpl; rewrite Hau; simpl;
        eexists _, _; (split; [done|]); simpl;
        rewrite !feedbacks_snoc; simpl; rewrite ?app_nil_r, Hto;
        split_and!; done. }
  exists app1, gs1. split_and!; [done..| |].
  - intros n. by apply ticks_dead.
  - destruct (fireTimeout_advances fuel app1 gs1 _ Hgs1 Hto1)
      as (app2 & gs2 & ? & ? & ? & ? & ? & ?).
    exists app2, gs2. split_and!; [done|done|congruence|done..].
Qed.

Lemma selectLetter_answers_witness :
  ∃ app1 gs1,
    selectLetter "A"
      (setGame (Some (withTimer (Some 1%nat)
                        (withRound (Some (simpleWord "cat")) false 10
                           (roundOn (simpleWord "cat")))))
         (setTimers 1 [1%nat] [] (newApp []))) = Done app1 ∧
    gameState app1 = Some gs1 ∧
    score gs1 = 0%nat ∧
    timeouts app1 = [(2500%nat, CbNextQuestion)] ∧
    ticks 3 1 app1 = Done app1.
Proof.
  destruct (selectLetter_answers 0 "A"
              (setGame (Some (withTimer (Some 1%nat)
                                (withRound (Some (simpleWord "cat")) false 10
                                   (roundOn (simpleWord "cat")))))
                 (setTimers 1 [1%nat] [] (newApp [])))
              (withTimer (Some 1%nat)
                 (withRound (Some (simpleWord "cat")) false 10
                    (roundOn (simpleWord "cat"))))
              1 eq_refl eq_refl eq_refl eq_refl)
    as (app1 & gs1 & Hsel & Hgs1 & _ & _ & Hs & _ & Hto & _ & Hticks & _).
  exists app1, gs1. split; [exact Hsel|]. split; [exact Hgs1|].
  split; [exact Hs|]. split; [exact Hto|exact (Hticks 3%nat)].
Defined.

(** ** What every run keeps *)

Lemma clearInterval_timer app gs :
  intervals app = [] ∨ (∃ id, timer gs = Some id ∧ intervals app = [id]) →
  intervals (clearInterval (timer gs) app) = [].
Proof.
  intros H. destruct (timer gs) as [id|]; simpl.
  - destruct H as [->|(id' & [= ->] & ->)]; [done|].
    by rewrite filter_cons, decide_False, filter_nil by naive_solver.
  - by destruct H as [->|(? & ? & _)].
Qed.

Lemma Forall_resultShown_snoc l e :
  Forall resultShown l → resultShown e → Forall resultShown (l ++ [e]).
Proof. intros Hl He. apply Forall_app. split; [done|]. by apply Forall_singleton. Qed.

Lemma endGame_sound app gs :
  gameState app = Some gs →
  Forall resultShown (log app) →
  modalOpen app = true → totalQuestions gs = 10%nat →
  (score gs + (if isAnswered gs then 0 else 1) ≤ 10)%nat →
  (10 ≤ currentQuestion gs)%nat →
  intervals app = [] ∨ (∃ id, timer gs = Some id ∧ intervals app = [id]) →
  ∃ app', endGame app = Done app' ∧ sound app'.
Proof.
  intros Hgs Hlog Hmod Htot Hscore Hq Hiv. unfold endGame. rewrite Hgs.
  eexists. split; [done|]. unfold sound.
  pose proof (clearInterval_timer app gs Hiv) as Hclr.
  assert (gameState (clearInterval (timer gs) app) = Some gs ∧
          modalOpen (clearInterval (timer gs) app) = true ∧
          log (clearInterval (timer gs) app) = log app) as (Hg & Hm & Hl).
  { by destruct (timer gs). }
  simpl. rewrite Hg, Hm, Hl, Hclr. split.
  - apply Forall_resultShown_snoc; [done|]. simpl. rewrite Htot.
    split_and!; [done|lia|]. apply resultsMessage_bandOf. lia.
  - split_and!; [done|done|lia|by left].
Qed.

(** [startNewGameRound] on a state that [startWordGame] or [nextQuestion]
    prepared. *)
Lemma startNewGameRound_sound fuel app gs :
  gameState app = Some gs →
  Forall resultShown (log app) →
  modalOpen app = true → totalQuestions gs = 10%nat →
  (score gs ≤ currentQuestion gs)%nat →
  (score gs + (if isAnswered gs then 0 else 1) ≤ 10 ∨ currentQuestion gs < 10)%nat →
  intervals app = [] ∨ (∃ id, timer gs = Some id ∧ intervals app = [id]) →
  ∃ app', stateOf (startNewGameRound fuel app) = Some app' ∧ sound app'.
Proof.
  intros Hgs Hlog Hmod Htot Hscore Hend Hiv. unfold startNewGameRound.
  rewrite Hgs, Htot.
  destruct (Nat.leb_spec 10 (currentQuestion gs)) as [Hq|Hq].
  { destruct (endGame_sound app gs) as (app' & -> & Hs); try done; [lia|].
    by exists app'. }
  destruct (gameWords gs !! currentQuestion gs) as [cw|] eqn:Hcw.
  - destruct (generateWordPuzzle_spec fuel
                (withRound (Some cw) false 10 gs) cw (random app) eq_refl)
      as (gs2 & g' & -> & _ & _ & _ & Hq2 & Hs2 & Ht2 & _ & Htm & _ & Hw & Ha).
    simpl in Hq2, Hs2, Ht2, Htm, Hw, Ha.
    unfold updateGameUI, startTimer, speakCurrentGameWord. simpl.
    assert (intervals
              (match timer gs2 with
               | Some id =>
                   clearInterval (Some id)
                     (emit (EvRoundUI (displayWord gs2) (letterOptions gs2)
                              (score gs2) (totalQuestions gs2))
                        (emit (EvTimerText (timeLeft gs2))
                           (setRandom g' (setGame (Some gs2) app))))
               | None =>
                   emit (EvRoundUI (displayWord gs2) (letterOptions gs2)
                           (score gs2) (totalQuestions gs2))
                     (emit (EvTimerText (timeLeft gs2))
                        (setRandom g' (setGame (Some gs2) app)))
               end) = []) as Hclr.
    { rewrite Htm. destruct (timer gs) as [id|]; simpl.
      - destruct Hiv as [->|(id' & [= ->] & ->)]; [done|].
        by rewrite filter_cons, decide_False, filter_nil by naive_solver.
      - by destruct Hiv as [->|(? & ? & _)]. }
    destruct (timer gs2) as [id|]; simpl in Hclr |- *; rewrite Hw; simpl;
      eexists; (split; [done|]); unfold sound; simpl;
      rewrite Hclr, Hq2, Hs2, Ht2, Ha; simpl;
      (split; [repeat (apply Forall_resultShown_snoc; [|done]); done|]);
      (split_and!; [done|done|lia|right; by eexists]).
  - rewrite generateWordPuzzle_no_word by done. simpl.
    eexists. split; [done|]. unfold sound. simpl.
    split; [done|]. split_and!; [done|done|lia|done].
Qed.

Lemma selectLetter_sound letter app :
  sound app → ∃ app', stateOf (selectLetter letter app) = Some app' ∧ sound app'.
Proof.
  intros Hs. unfold selectLetter.
  destruct (gameState app) as [gs|] eqn:Hgs; [|by exists app].
  destruct (isAnswered gs) eqn:Ha; [by exists app|].
  destruct Hs as [Hlog Hg]. rewrite Hgs in Hg.
  destruct Hg as (Hmod & Htot & Hscore & Hiv). rewrite Ha in Hscore.
  pose proof (clearInterval_timer app gs Hiv) as Hclr.
  assert (∀ gs', intervals (clearInterval (timer gs) (setGame gs' app)) = []
                 ∧ modalOpen (clearInterval (timer gs) (setGame gs' app)) = true
                 ∧ log (clearInterval (timer gs) (setGame gs' app)) = log app
                 ∧ audioContext (clearInterval (timer gs) (setGame gs' app))
                   = audioContext app
                 ∧ gameState (clearInterval (timer gs) (setGame gs' app)) = gs')
    as Hc.
  { intros gs'. destruct (timer gs); simpl in *; done. }
  cbn [timer withRound correctAnswer score currentQuestion].
  unfold playSound, showFeedback.
  destruct (Hc (Some (withRound (currentWord gs) true (timeLeft gs) gs)))
    as (Hi & Hm & Hl & Hau & Hg).
  set (app1 := clearInterval (timer gs)
                 (setGame (Some (withRound (currentWord gs) true (timeLeft gs) gs))
                    app)) in *.
  destruct (bool_decide (JStr letter = correctAnswer gs));
    simpl; rewrite ?Hau; destruct (audioContext app);
    eexists; (split; [done|]); unfold sound; simpl;
    rewrite ?Hi, ?Hm, ?Hl, ?Hg; simpl; rewrite ?Htot;
    (split; [repeat (apply Forall_resultShown_snoc; [|done]); done|]);
    (split_and!; [done|done|lia|by left]).
Qed.

Lemma tick_sound id app :
  sound app → ∃ app', stateOf (tick id app) = Some app' ∧ sound app'.
Proof.
  intros Hs. unfold tick. case_bool_decide; [|by exists app].
  unfold countdown.
  destruct (gameState app) as [gs|] eqn:Hgs; [|by exists app].
  destruct Hs as [Hlog Hg]. rewrite Hgs in Hg.
  destruct Hg as (Hmod & Htot & Hscore & Hiv).
  cbn [timeLeft withRound].
  destruct (timeLeft gs - 1 <=? 0)%Z.
  - unfold timeUp. simpl. destruct (isAnswered gs) eqn:Ha;
      eexists; (split; [done|]); unfold sound; simpl; rewrite ?Ha;
      (split; [repeat (apply Forall_resultShown_snoc; [|done]); done|]);
      (split_and!; [done|done|lia|done]).
  - eexists. split; [done|]. unfold sound. simpl.
    split; [by apply Forall_resultShown_snoc|]. done.
Qed.

Lemma speakCurrentGameWord_sound app :
  sound app →
  ∃ app', stateOf (speakCurrentGameWord app) = Some app' ∧ sound app'.
Proof.
  intros Hs. unfold speakCurrentGameWord.
  destruct (gameState app) as [gs|] eqn:Hgs; [|by exists app].
  destruct (currentWord gs); [|by exists app].
  eexists. split; [done|]. destruct Hs as [Hlog Hg].
  unfold sound. simpl. split; [by apply Forall_resultShown_snoc|done].
Qed.

Lemma closeGame_sound app : sound app → sound (closeGame app).
Proof.
  intros [Hlog Hg]. unfold closeGame, sound.
  destruct (gameState app) as [gs|] eqn:Hgs; simpl; rewrite Hgs.
  - destruct Hg as (_ & _ & _ & Hiv).
    destruct (timer gs) as [id|]; simpl.
    + split; [done|]. split; [|done].
      destruct Hiv as [->|(id' & [= ->] & ->)]; [done|].
      by rewrite filter_cons, decide_False, filter_nil by naive_solver.
    + split; [done|]. by destruct Hiv as [->|(? & ? & _)].
  - simpl. destruct Hg. done.
Qed.

Lemma startWordGame_sound fuel app :
  sound app → ∃ app', stateOf (startWordGame fuel app) = Some app' ∧ sound app'.
Proof.
  intros Hs. unfold startWordGame.
  destruct (gameState app) as [gs|] eqn:Hgs.
  - destruct Hs as [Hlog Hg]. rewrite Hgs in Hg.
    pose proof Hg as (Hmod & _). rewrite Hmod.
    rewrite bool_decide_eq_true_2 by done. simpl. exists app.
    split; [done|]. split; [done|]. by rewrite Hgs.
  - rewrite bool_decide_eq_false_2 by naive_solver. simpl.
    destruct Hs as [Hlog Hg]. rewrite Hgs in Hg. destruct Hg as [Hiv Hmod].
    unfold initializeGame.
    destruct (selectGameWords (words app) (random app)) as [selected g].
    eapply startNewGameRound_sound; [reflexivity|..]; simpl;
      try done; try lia; try (by left); right; lia.
Qed.

Lemma fireTimeout_sound fuel app :
  sound app → ∃ app', stateOf (fireTimeout fuel app) = Some app' ∧ sound app'.
Proof.
  intros Hs. unfold fireTimeout.
  destruct (timeouts app) as [|[d []] rest]; [by exists app|].
  unfold nextQuestion. simpl.
  destruct (gameState app) as [gs|] eqn:Hgs.
  - destruct Hs as [Hlog Hg]. rewrite Hgs in Hg.
    destruct Hg as (Hmod & Htot & Hscore & Hiv).
    eapply startNewGameRound_sound; [reflexivity|..]; simpl; try done.
    + destruct (isAnswered gs); lia.
    + destruct (isAnswered gs); lia.
  - eexists. split; [done|]. destruct Hs as [Hlog Hg]. rewrite Hgs in Hg.
    unfold sound. simpl. by rewrite Hgs.
Qed.

Lemma handle_sound fuel i app :
  sound app → ∃ app', stateOf (handle fuel i app) = Some app' ∧ sound app'.
Proof.
  intros Hs. destruct i; simpl.
  - by apply startWordGame_sound.
  - by apply selectLetter_sound.
  - by apply speakCurrentGameWord_sound.
  - eexists. split; [done|]. by apply closeGame_sound.
  - by apply tick_sound.
  - by apply fireTimeout_sound.
Qed.

Lemma run_sound fuel inputs app :
  sound app → ∃ app', run fuel inputs app = Some app' ∧ sound app'.
Proof.
  revert app. induction inputs as [|i inputs IH]; intros app Hs.
  - by exists app.
  - destruct (handle_sound fuel i app Hs) as (app1 & H1 & Hs1).
    cbn [run]. rewrite H1. by apply IH.
Qed.

Lemma loadWords_sound r g : sound (loadWords r (newApp g)).
Proof.
  unfold sound. destruct r as [|[|r data]]; simpl;
    (split; [repeat constructor|done]).
Qed.

(** In every run of the page, from the state the constructor and
    [loadWords] leave, whatever the inputs, the draws and the fuel: no
    handler hangs in the filling loop, and every final score the page ever
    shows is a score out of 10, at most 10, with the message tier of its
    exact percentage band.  With a game on, the score never exceeds the
    number of rounds started. *)
Theorem run_results fuel inputs r g :
  ∃ app',
    run fuel inputs (loadWords r (newApp g)) = Some app' ∧
    (∀ s t tier, EvResults s t tier ∈ log app' →
       t = 10%nat ∧ (s ≤ 10)%nat ∧ tier = bandOf s 10) ∧
    (∀ gs, gameState app' = Some gs →
       totalQuestions gs = 10%nat ∧
       (score gs ≤ (currentQuestion gs + 1) `min` 10)%nat).
Proof.
  destruct (run_sound fuel inputs _ (loadWords_sound r g))
    as (app' & Hrun & Hlog & Hg).
  exists app'. split; [done|]. split.
  - intros s t tier Hin.
    apply (proj1 (Forall_forall _ _) Hlog) in Hin. exact Hin.
  - intros gs Hgs. rewrite Hgs in Hg. destruct Hg as (_ & Htot & Hs & _).
    split; [done|]. lia.
Qed.

(** In every run of the page at most one countdown is live, and it is the
    one [gameState.timer] names; without a game (before the first one and
    after [closeGame]) none is live and the modal is off, and with a game
    the modal is on. *)
Theorem run_one_countdown fuel inputs r g :
  ∃ app',
    run fuel inputs (loadWords r (newApp g)) = Some app' ∧
    (length (intervals app') ≤ 1)%nat ∧
    (∀ id, id ∈ intervals app' →
       ∃ gs, gameState app' = Some gs ∧ timer gs = Some id) ∧
    (gameState app' = None → intervals app' = [] ∧ modalOpen app' = false) ∧
    (gameState app' ≠ None → modalOpen app' = true).
Proof.
  destruct (run_sound fuel inputs _ (loadWords_sound r g))
    as (app' & Hrun & Hlog & Hg).
  exists app'. split; [done|].
  destruct (gameState app') as [gs|] eqn:Hgs.
  - destruct Hg as (Hmod & _ & _ & [Hiv|(id & Ht & Hiv)]); rewrite Hiv.
    + split_and!; [simpl; lia| |done|done].
      intros id Hid. by apply elem_of_nil in Hid.
    + split_and!; [simpl; lia| |done|done].
      intros id' ->%list_elem_of_singleton. by exists gs.
  - destruct Hg as [Hiv Hmod]. rewrite Hiv.
    split_and!; [simpl; lia| |done|done].
    intros id Hid. by apply elem_of_nil in Hid.
Qed.

(** [closeGame] stops the countdown of the round but not a pending
    advance: afterwards there is no game, no firing of the round's interval
    changes anything, the queue of pending callbacks is as it was, and when
    such a callback fires it fails with a [TypeError] on the missing game
    state, leaving everything else as is. *)
Theorem closeGame_pending fuel app gs id d rest :
  gameState app = Some gs →
  timer gs = Some id →
  timeouts app = (d, CbNextQuestion) :: rest →
  gameState (closeGame app) = None ∧
  modalOpen (closeGame app) = false ∧
  (id ∉ intervals (closeGame app)) ∧
  (∀ n, ticks n id (closeGame app) = Done (closeGame app)) ∧
  timeouts (closeGame app) = (d, CbNextQuestion) :: rest ∧
  log (closeGame app) = log app ∧
  fireTimeout fuel (closeGame app) =
    Raised TypeError
      (setTimers (nextTimerId (closeGame app)) (intervals (closeGame app))
         rest (closeGame app)).
Proof.
  intros Hgs Ht Hto.
  assert (id ∉ intervals (closeGame app)) as Hid.
  { unfold closeGame. simpl. rewrite Hgs, Ht. simpl.
    intros [? _]%list_elem_of_filter. done. }
  split_and!; [done| |done| | | |].
  - unfold closeGame. simpl. rewrite Hgs, Ht. done.
  - intros n. by apply ticks_dead.
  - unfold closeGame. simpl. rewrite Hgs, Ht. done.
  - unfold closeGame. simpl. rewrite Hgs, Ht. done.
  - unfold fireTimeout.
    assert (timeouts (closeGame app) = (d, CbNextQuestion) :: rest) as ->.
    { unfold closeGame. simpl. rewrite Hgs, Ht. done. }
    done.
Qed.

Lemma closeGame_pending_witness :
  fireTimeout 0
    (closeGame
       (setGame (Some (withTimer (Some 1%nat) (roundOn (simpleWord "cat"))))
          (setTimers 1 [1%nat] [(2500%nat, CbNextQuestion)] (newApp [])))) =
  Raised TypeError
    (setTimers 1 [] []
       (closeGame
          (setGame (Some (withTimer (Some 1%nat) (roundOn (simpleWord "cat"))))
             (setTimers 1 [1%nat] [(2500%nat, CbNextQuestion)] (newApp []))))).
Proof.
  apply (closeGame_pending 0
           (setGame (Some (withTimer (Some 1%nat) (roundOn (simpleWord "cat"))))
              (setTimers 1 [1%nat] [(2500%nat, CbNextQuestion)] (newApp [])))
           (withTimer (Some 1%nat) (roundOn (simpleWord "cat")))
           1 2500 [] eq_refl eq_refl eq_refl).
Defined.

(** After the game has ended, "play again" does nothing: [endGame] leaves
    the game state in place and the modal on screen, and in that state
    [startWordGame] returns at its guard; the results stay as they are
    until the game is closed. *)
Theorem startWordGame_after_endGame fuel app gs :
  gameState app = Some gs →
  modalOpen app = true →
  ∃ app',
    endGame app = Done app' ∧
    startWordGame fuel app' = Done app' ∧
    andThen (endGame app) (startWordGame fuel) = endGame app.
Proof.
  intros Hgs Hmod. unfold endGame. rewrite Hgs.
  eexists. split; [done|].
  assert (∀ e, startWordGame fuel (emit e (clearInterval (timer gs) app)) =
               Done (emit e (clearInterval (timer gs) app))) as Hstart.
  { intros e. unfold startWordGame.
    assert (gameState (emit e (clearInterval (timer gs) app)) = Some gs ∧
            modalOpen (emit e (clearInterval (timer gs) app)) = true)
      as [-> ->] by by destruct (timer gs).
    by rewrite bool_decide_eq_true_2. }
  split; [apply Hstart|]. simpl. apply Hstart.
Qed.

Lemma startWordGame_after_endGame_witness :
  ∃ app',
    endGame (setModal true
               (setGame (Some (withProgress 10 7 (roundOn (simpleWord "cat"))))
                  (newApp []))) = Done app' ∧
    startWordGame 0 app' = Done app'.
Proof.
  destruct (startWordGame_after_endGame 0
              (setModal true
                 (setGame (Some (withProgress 10 7 (roundOn (simpleWord "cat"))))
                    (newApp [])))
              (withProgress 10 7 (roundOn (simpleWord "cat"))) eq_refl eq_refl)
    as (app' & Hend & Hstart & _).
  exists app'. split; [exact Hend|exact Hstart].
Defined.

(** The number of words of a game: 5 from each pool, or the whole pool if
    it has fewer; so a game has the 10 words its 10 questions need exactly
    when the catalogue has at least 5 easy and at least 5 hard words. *)
Lemma initializeGame_length app :
  ∃ gs, gameState (initializeGame app) = Some gs ∧
        totalQuestions gs = 10%nat ∧
        length (gameWords gs) =
          (5 `min` length (filter isEasy (words app)) +
           5 `min` length (filter isHard (words app)))%nat.
Proof.
  destruct (selectGameWords_spec (words app) (random app))
    as (se & sh & Hperm & _ & _ & Hle & Hlh & _).
  unfold initializeGame.
  destruct (selectGameWords (words app) (random app)) as [selected g].
  simpl in *. eexists. split; [done|]. simpl. split; [done|].
  by rewrite Hperm, length_app, Hle, Hlh.
Qed.

(** The number of words of a game against its 10 questions: never more
    than 10, and exactly 10 when and only when the catalogue has at least 5
    easy and at least 5 hard words; otherwise [gameWords] is shorter than
    [totalQuestions]. *)
Theorem initializeGame_word_count app :
  ∃ gs, gameState (initializeGame app) = Some gs ∧
        totalQuestions gs = 10%nat ∧
        length (gameWords gs) =
          (5 `min` length (filter isEasy (words app)) +
           5 `min` length (filter isHard (words app)))%nat ∧
        (length (gameWords gs) ≤ totalQuestions gs)%nat ∧
        (length (gameWords gs) = totalQuestions gs ↔
         (5 ≤ length (filter isEasy (words app)))%nat ∧
         (5 ≤ length (filter isHard (words app)))%nat).
Proof.
  destruct (initializeGame_length app) as (gs & Hgs & Htot & Hlen).
  exists gs. rewrite Htot, Hlen. split_and!; [done|done|done|lia|lia].
Qed.

(** A game with fewer words than questions does not end after its last
    word: the round after it finds no word, [generateWordPuzzle] throws a
    [TypeError], no results are shown, and the countdown of the round
    before is not cancelled, with the time set back to 10 and the round
    marked unanswered. *)
Theorem startNewGameRound_out_of_words fuel app gs :
  gameState app = Some gs →
  (currentQuestion gs < totalQuestions gs)%nat →
  (length (gameWords gs) ≤ currentQuestion gs)%nat →
  ∃ app' gs',
    startNewGameRound fuel app = Raised TypeError app' ∧
    gameState app' = Some gs' ∧
    currentWord gs' = None ∧ isAnswered gs' = false ∧ timeLeft gs' = 10%Z ∧
    currentQuestion gs' = currentQuestion gs ∧
    intervals app' = intervals app ∧
    log app' = log app.
Proof.
  intros Hgs Hq Hlen. unfold startNewGameRound. rewrite Hgs.
  rewrite (proj2 (Nat.leb_gt _ _)) by done.
  rewrite (lookup_ge_None_2 (gameWords gs)) by done.
  rewrite generateWordPuzzle_no_word by done.
  eexists _, _. split; [done|]. done.
Qed.

Lemma startNewGameRound_out_of_words_witness :
  ∃ app',
    startNewGameRound 0
      (setGame (Some (withProgress 1 1 (roundOn (simpleWord "cat"))))
         (newApp [])) = Raised TypeError app' ∧
    log app' = [].
Proof.
  destruct (startNewGameRound_out_of_words 0
              (setGame (Some (withProgress 1 1 (roundOn (simpleWord "cat"))))
                 (newApp []))
              (withProgress 1 1 (roundOn (simpleWord "cat")))
              eq_refl ltac:(simpl; lia) ltac:(simpl; lia))
    as (app' & gs' & Hr & _ & _ & _ & _ & _ & _ & Hlog).
  exists app'. split; [exact Hr|exact Hlog].
Defined.

(** ** The history of clicked words *)

Lemma page_indexOf_Some x (a : list string) i :
  Page.indexOf x a = Some i → a !! i = Some x.
Proof.
  revert i. induction a as [|y a IH]; intros i; simpl; [done|].
  case_decide as Hy.
  - by intros [= <-]; subst.
  - destruct (Page.indexOf x a) as [j|]; [|done]. simpl. intros [= <-]. by apply IH.
Qed.

Lemma page_indexOf_None x (a : list string) : Page.indexOf x a = None → x ∉ a.
Proof.
  induction a as [|y a IH]; simpl; [intros _; apply not_elem_of_nil|].
  case_decide as Hy; [done|].
  destruct (Page.indexOf x a) as [j|]; [done|]. intros _.
  apply not_elem_of_cons. split; [done|]. by apply IH.
Qed.

Lemma filter_ne_id (x : string) (l : list string) :
  x ∉ l → filter (λ y, y ≠ x) l = l.
Proof.
  induction l as [|y l IH]; [done|]. intros [Hne Hl]%not_elem_of_cons.
  rewrite filter_cons_True by done. by rewrite IH.
Qed.

Lemma delete_filter_ne (x : string) (l : list string) i :
  NoDup l → l !! i = Some x → delete i l = filter (λ y, y ≠ x) l.
Proof.
  revert i. induction l as [|y l IH]; intros i Hnd Hi; [done|].
  apply NoDup_cons in Hnd as [Hy Hnd]. destruct i as [|i]; simpl in *.
  - injection Hi as ->. rewrite filter_cons_False by naive_solver.
    by rewrite filter_ne_id.
  - rewrite filter_cons_True.
    + by rewrite (IH i).
    + intros ->. apply Hy. by eapply list_elem_of_lookup_2.
Qed.

(** On a history without repetitions, [addToClickedWords] moves the word to
    the front and keeps the first 10. *)
Lemma addToClickedWords_NoDup w (h : list string) :
  NoDup h →
  Page.addToClickedWords w h = take 10 (w :: filter (λ y, y ≠ w) h).
Proof.
  intros Hnd. unfold Page.addToClickedWords.
  destruct (Page.indexOf w h) as [i|] eqn:Hi.
  - apply page_indexOf_Some in Hi. by rewrite (delete_filter_ne w h i).
  - apply page_indexOf_None in Hi. by rewrite filter_ne_id.
Qed.

Lemma NoDup_filter_ne (x : string) (l : list string) :
  NoDup l → NoDup (filter (λ y, y ≠ x) l).
Proof. apply NoDup_filter. Qed.

Lemma distinct_NoDup l : NoDup (Page.distinct l).
Proof.
  induction l as [|x l IH]; simpl; [constructor|].
  apply NoDup_cons. split; [|by apply NoDup_filter_ne].
  intros [Hx _]%list_elem_of_filter. done.
Qed.

Lemma distinct_elem_of l x : x ∈ Page.distinct l ↔ x ∈ l.
Proof.
  induction l as [|y l IH]; simpl; [done|].
  rewrite !elem_of_cons, list_elem_of_filter, IH.
  destruct (decide (x = y)) as [->|Hne]; [split; by left|].
  split; [intros [?|[_ ?]]; [done|by right]|intros [?|?]; [done|by right]].
Qed.

(** Filtering out one word of a list without repetitions and then cutting
    to [n], or cutting to [n + 1] first: the same. *)
Lemma take_filter_ne (w : string) (D : list string) n :
  NoDup D →
  take n (filter (λ y, y ≠ w) (take (S n) D)) = take n (filter (λ y, y ≠ w) D).
Proof.
  revert n. induction D as [|x D IH]; intros n Hnd; [done|].
  apply NoDup_cons in Hnd as [Hx Hnd].
  destruct (decide (x = w)) as [->|Hne].
  - simpl. rewrite !filter_cons_False by naive_solver.
    rewrite !filter_ne_id; [|done|].
    + destruct n; [done|]. by rewrite take_take, Nat.min_l by lia.
    + intros Hin. apply Hx. eapply elem_of_sublist; [done|apply sublist_take].
  - simpl. rewrite !filter_cons_True by done.
    destruct n as [|n]; [done|]. simpl. f_equal. by apply IH.
Qed.

Lemma history_snoc ws w :
  Page.history (ws ++ [w]) = Page.addToClickedWords w (Page.history ws).
Proof. unfold Page.history. by rewrite foldl_app. Qed.

Lemma history_recent ws :
  Page.history ws = take 10 (Page.distinct (reverse ws)).
Proof.
  induction ws as [|w ws IH] using rev_ind; [done|].
  rewrite history_snoc, IH, reverse_app. simpl.
  pose proof (distinct_NoDup (reverse ws)) as Hnd.
  rewrite addToClickedWords_NoDup.
  - simpl. f_equal. by apply (take_filter_ne w _ 9).
  - apply (sublist_NoDup _ _ Hnd), sublist_take.
Qed.

Lemma clickedWords_history app rs :
  Page.clickedWords
    (foldl (λ st r, Page.onWordButtonSelected r st) (Page.newState app) rs) =
  Page.history (word <$> rs) ∧
  Page.currentWord
    (foldl (λ st r, Page.onWordButtonSelected r st) (Page.newState app) rs) =
  last rs.
Proof.
  induction rs as [|r rs IH] using rev_ind; [done|].
  rewrite foldl_app, fmap_app, last_snoc. simpl.
  rewrite history_snoc. destruct IH as [-> _]. done.
Qed.

(** After any sequence of selected word buttons on a fresh page, the
    history holds the 10 most recently selected distinct words, the latest
    first: the words selected, from the last one backwards, each at its
    latest selection, cut after 10.  It has no repetitions and at most 10
    entries, and the current word is the last one selected. *)
Theorem clickedWords_recent app rs :
  let st := foldl (λ st r, Page.onWordButtonSelected r st) (Page.newState app) rs in
  Page.clickedWords st = take 10 (Page.distinct (reverse (word <$> rs))) ∧
  NoDup (Page.clickedWords st) ∧
  (length (Page.clickedWords st) ≤ 10)%nat ∧
  (∀ w, w ∈ Page.clickedWords st → ∃ r, r ∈ rs ∧ word r = w) ∧
  Page.currentWord st = last rs ∧
  head (Page.clickedWords st) = word <$> last rs.
Proof.
  intros st. subst st.
  destruct (clickedWords_history app rs) as [-> ->].
  rewrite history_recent. split_and!; [done| | | |done|].
  - apply (sublist_NoDup _ (Page.distinct (reverse (word <$> rs))));
      [apply distinct_NoDup|apply sublist_take].
  - rewrite length_take. lia.
  - intros w Hw. eapply elem_of_sublist in Hw; [|apply sublist_take].
    apply (proj1 (distinct_elem_of _ _)) in Hw.
    apply (proj1 (elem_of_reverse _ _)) in Hw.
    apply list_elem_of_fmap in Hw as (r & -> & Hr). by exists r.
  - destruct rs as [|r rs _] using rev_ind; [done|].
    by rewrite fmap_app, reverse_app, last_snoc.
Qed.

(** ** Searching and filtering *)


Lemma lower_lower_ascii c :
  Page.lower_ascii (Page.lower_ascii c) = Page.lower_ascii c.
Proof. destruct c as [[] [] [] [] [] [] [] []]; reflexivity. Qed.



Lemma toLowerCase_idemp s :
  Page.toLowerCase (Page.toLowerCase s) = Page.toLowerCase s.
Proof. induction s as [|c s IH]; simpl; [done|]. by rewrite lower_lower_ascii, IH. Qed.


Lemma baseWords_sublist st : Page.baseWords st `sublist_of` words (Page.core st).
Proof.
  unfold Page.baseWords. case_decide; [done|]. apply sublist_filter.
Qed.



(** Choosing a category and typing a search term can be done in either
    order: both ways end in the same state, the one that shows the words of
    the category that match the term. *)
Theorem search_filter_commute term c st :
  Page.onFilterChange c (Page.onSearchInput term st) =
  Page.onSearchInput term (Page.onFilterChange c st) ∧
  Page.currentFilter (Page.onFilterChange c (Page.onSearchInput term st)) = c ∧
  Page.searchBar (Page.onFilterChange c (Page.onSearchInput term st)) = term ∧
  filteredWords (Page.core (Page.onFilterChange c (Page.onSearchInput term st))) =
    (if Page.blank term then
       if decide (c = "all") then words (Page.core st)
       else Page.byCategory c (words (Page.core st))
     else
       filter (Page.matches (Page.toLowerCase term))
         (if decide (c = "all") then words (Page.core st)
          else Page.byCategory c (words (Page.core st)))).
Proof.
  unfold Page.onFilterChange, Page.onSearchInput, Page.filterWords,
    Page.searchWords, Page.baseWords.
  cbn [Page.searchBar Page.setFilter Page.setControls Page.currentFilter
       Page.core Page.setFiltered Page.filterSelect].
  destruct (Page.blank term) eqn:Hb, (Page.blank (Page.searchBar st)) eqn:Hb0,
    (decide (c = "all")) as [Hc|Hc], (decide (Page.currentFilter st = "all"));
    simpl; rewrite ?Hb; simpl; rewrite ?decide_True by done;
    rewrite ?decide_False by done; done.
Qed.

(** ** The history view, the categories and the word buttons *)

Lemma find_Some {A} (p : A → bool) (a : list A) x :
  Page.find p a = Some x →
  ∃ i, a !! i = Some x ∧ p x = true ∧
       ∀ j y, (j < i)%nat → a !! j = Some y → p y = false.
Proof.
  induction a as [|z a IH]; simpl; [done|].
  destruct (p z) eqn:Hz.
  - intros [= ->]. exists 0%nat. split_and!; [done..|]. intros j y Hj. lia.
  - intros (i & Hi & Hp & Hmin)%IH. exists (S i). split_and!; [done..|].
    intros [|j] y Hj Hy; simpl in Hy; [by injection Hy as <-|].
    apply (Hmin j); [lia|done].
Qed.

Lemma find_None {A} (p : A → bool) (a : list A) :
  Page.find p a = None → ∀ x, x ∈ a → p x = false.
Proof.
  induction a as [|z a IH]; simpl.
  - intros _ x Hx. by apply elem_of_nil in Hx.
  - destruct (p z) eqn:Hz; [done|].
    intros Hn x [->|Hx]%elem_of_cons; auto.
Qed.

(** Looking up the clicked texts in the catalogue keeps, in order, the
    texts the catalogue has. *)
Lemma omap_find_texts (ws : list WordRecord) (clicked : list string) :
  word <$> omap (λ w, Page.find (λ r, bool_decide (word r = w)) ws) clicked =
  filter (λ t, t ∈ word <$> ws) clicked.
Proof.
  induction clicked as [|t clicked IH]; [done|]. cbn [omap list_omap].
  destruct (Page.find (λ r, bool_decide (word r = t)) ws) as [r|] eqn:Hf.
  - apply find_Some in Hf as (i & Hi & Hp & _).
    apply bool_decide_eq_true in Hp.
    rewrite filter_cons_True.
    + rewrite fmap_cons. by rewrite Hp, IH.
    + apply list_elem_of_fmap. exists r. split; [done|].
      by eapply list_elem_of_lookup_2.
  - rewrite filter_cons_False; [done|].
    intros (r & -> & Hr)%list_elem_of_fmap.
    pose proof (find_None _ _ Hf r Hr) as Hp. simpl in Hp.
    by apply bool_decide_eq_false in Hp.
Qed.

(** With a non-empty history, [showLastClickedWords] shows one record for
    each clicked text the catalogue still has, in the order of the
    history: the first record of the catalogue with that text.  It empties
    the search bar and sets the category control to "all", but leaves
    [currentFilter] and the history as they were. *)
Theorem showLastClickedWords_shows st :
  Page.clickedWords st ≠ [] →
  word <$> filteredWords (Page.core (Page.showLastClickedWords st)) =
    filter (λ t, t ∈ word <$> words (Page.core st)) (Page.clickedWords st) ∧
  (∀ r, r ∈ filteredWords (Page.core (Page.showLastClickedWords st)) →
     word r ∈ Page.clickedWords st ∧
     ∃ i, words (Page.core st) !! i = Some r ∧
          ∀ j r', (j < i)%nat → words (Page.core st) !! j = Some r' →
                  word r' ≠ word r) ∧
  (length (filteredWords (Page.core (Page.showLastClickedWords st)))
     ≤ length (Page.clickedWords st))%nat ∧
  Page.searchBar (Page.showLastClickedWords st) = EmptyString ∧
  Page.filterSelect (Page.showLastClickedWords st) = "all" ∧
  Page.currentFilter (Page.showLastClickedWords st) = Page.currentFilter st ∧
  Page.clickedWords (Page.showLastClickedWords st) = Page.clickedWords st ∧
  words (Page.core (Page.showLastClickedWords st)) = words (Page.core st).
Proof.
  intros Hne. unfold Page.showLastClickedWords.
  destruct (Page.clickedWords st) as [|t0 clicked] eqn:Hcl; [done|].
  change (length (t0 :: clicked) =? 0)%nat with false. cbv iota.
  remember (omap (λ w, Page.find (λ r, bool_decide (word r = w))
                         (words (Page.core st))) (t0 :: clicked)) as fs eqn:Hfs.
  simpl. split_and!; [| | |done..].
  - subst fs. apply omap_find_texts.
  - intros r Hr. subst fs.
    apply list_elem_of_omap in Hr as (t & Ht & Hf).
    apply find_Some in Hf as (i & Hi & Hp & Hmin).
    apply bool_decide_eq_true in Hp. subst t. split; [done|].
    exists i. split; [done|]. intros j r' Hj Hr'.
    pose proof (Hmin j r' Hj Hr') as Hq. simpl in Hq.
    by apply bool_decide_eq_false in Hq.
  - rewrite <- (length_fmap word). subst fs. rewrite omap_find_texts.
    change (S (length clicked)) with (length (t0 :: clicked)).
    apply length_filter.
Qed.

Lemma showLastClickedWords_shows_witness :
  word <$> filteredWords (Page.core (Page.showLastClickedWords
         (Page.onWordButtonSelected (simpleWord "cat")
            (Page.newState
               (loadWords (FetchArray [simpleWord "dog"; simpleWord "cat"])
                  (newApp [])))))) = ["cat"].
Proof.
  apply (showLastClickedWords_shows
           (Page.onWordButtonSelected (simpleWord "cat")
              (Page.newState
                 (loadWords (FetchArray [simpleWord "dog"; simpleWord "cat"])
                    (newApp []))))).
  discriminate.
Defined.

Lemma categorySet_aux (ws : list WordRecord) (acc : list string) :
  NoDup acc →
  NoDup (foldl (λ acc w, if decide (category w ∈ acc) then acc
                         else acc ++ [category w]) acc ws) ∧
  ∀ x, x ∈ foldl (λ acc w, if decide (category w ∈ acc) then acc
                           else acc ++ [category w]) acc ws ↔
       x ∈ acc ∨ ∃ w, w ∈ ws ∧ category w = x.
Proof.
  revert acc. induction ws as [|w ws IH]; intros acc Hnd; simpl.
  - split; [done|]. intros x. split; [by left|].
    intros [?|(w & Hw & _)]; [done|]. by apply elem_of_nil in Hw.
  - destruct (decide (category w ∈ acc)) as [Hin|Hout].
    + destruct (IH acc Hnd) as [Hn He]. split; [done|]. intros x. rewrite He.
      split.
      * intros [?|(w' & Hw' & Hc)]; [by left|].
        right. exists w'. split; [by apply list_elem_of_further|done].
      * intros [?|(w' & [->|Hw']%elem_of_cons & Hc)]; [by left| |].
        -- left. by rewrite <- Hc.
        -- right. by exists w'.
    + destruct (IH (acc ++ [category w])) as [Hn He].
      { apply NoDup_app. split_and!; [done| |apply NoDup_singleton].
        intros y Hy ->%list_elem_of_singleton. done. }
      split; [done|]. intros x. rewrite He, elem_of_app, list_elem_of_singleton.
      split.
      * intros [[?| ->]|(w' & Hw' & Hc)]; [by left| |].
        -- right. exists w. split; [apply list_elem_of_here|done].
        -- right. exists w'. split; [by apply list_elem_of_further|done].
      * intros [?|(w' & [->|Hw']%elem_of_cons & Hc)];
          [by left; left|by left; right|].
        right. by exists w'.
Qed.

(** [getUniqueCategories] returns exactly the categories that occur in the
    catalogue, each once, in ascending order. *)
Theorem getUniqueCategories_sorted (ws : list WordRecord) :
  (∀ x, x ∈ Page.getUniqueCategories ws ↔ ∃ w, w ∈ ws ∧ category w = x) ∧
  NoDup (Page.getUniqueCategories ws) ∧
  StronglySorted String.le (Page.getUniqueCategories ws).
Proof.
  unfold Page.getUniqueCategories, Page.categorySet.
  destruct (categorySet_aux ws [] (NoDup_nil_2)) as [Hn He].
  split_and!.
  - intros x. rewrite merge_sort_Permutation, He. split.
    + intros [Hx|?]; [by apply elem_of_nil in Hx|done].
    + intros ?. by right.
  - by rewrite merge_sort_Permutation.
  - apply StronglySorted_merge_sort; apply _.
Qed.

Lemma filter_unique_text (data : list WordRecord) r :
  NoDup (word <$> data) → r ∈ data →
  filter (λ r', word r' = word r) data = [r].
Proof.
  induction data as [|r0 data IH]; intros Hnd Hr; [by apply elem_of_nil in Hr|].
  rewrite fmap_cons in Hnd. apply NoDup_cons in Hnd as [Hr0 Hnd].
  apply elem_of_cons in Hr as [->|Hr].
  - rewrite filter_cons_True by done. f_equal.
    apply filter_none, Forall_forall. intros r' Hr' Heq. apply Hr0.
    rewrite <- Heq. apply list_elem_of_fmap. by exists r'.
  - rewrite filter_cons_False; [by apply IH|].
    intros Heq. apply Hr0. rewrite Heq. apply list_elem_of_fmap. by exists r.
Qed.

(** When the texts of the loaded records are non-empty and pairwise
    different, the lookup table and the word sequence agree: looking up the
    text of a record gives back that very record, and the table holds
    nothing else. *)
Theorem loadWords_unique_texts data app :
  NoDup (word <$> data) →
  Forall (λ r, word r ≠ EmptyString) data →
  (∀ r, r ∈ data →
     wordLookup (loadWords (FetchArray data) app) !! word r = Some r) ∧
  (∀ k r, wordLookup (loadWords (FetchArray data) app) !! k = Some r →
     r ∈ data ∧ word r = k) ∧
  lookupAgrees (loadWords (FetchArray data) app).
Proof.
  intros Hnd Hne. destruct (loadWords_array data app) as [Hw Hm].
  assert (∀ r, r ∈ data →
     wordLookup (loadWords (FetchArray data) app) !! word r = Some r) as Hget.
  { intros r Hr. rewrite Hm, buildLookup_lookup.
    rewrite decide_False by by apply (proj1 (Forall_forall _ _) Hne).
    by rewrite filter_unique_text. }
  assert (∀ k r, wordLookup (loadWords (FetchArray data) app) !! k = Some r →
     r ∈ data ∧ word r = k) as Hback.
  { intros k r. rewrite Hm, buildLookup_lookup, lookup_empty.
    destruct (decide (k = EmptyString)); [done|].
    destruct (last _) as [r'|] eqn:Hlast; [|done]. intros [= ->].
    apply last_Some_elem_of, list_elem_of_filter in Hlast as [? ?]. done. }
  split_and!; [done|done|]. unfold lookupAgrees. rewrite Hw. split.
  - intros k r Hk. by apply Hback in Hk as [? _].
  - intros r Hr. exists (word r). by apply Hget.
Qed.

Lemma loadWords_unique_texts_witness :
  lookupAgrees
    (loadWords (FetchArray [simpleWord "cat"; simpleWord "dog"]) (newApp [])).
Proof.
  apply (loadWords_unique_texts [simpleWord "cat"; simpleWord "dog"] (newApp [])).
  - apply (bool_decide_unpack _). vm_compute. reflexivity.
  - apply (bool_decide_unpack _). vm_compute. reflexivity.
Defined.

(** What every run of the word page keeps: the catalogue and its lookup
    table as loaded, and only records of the catalogue on show. *)
Lemma page_handle_keeps i st data :
  words (Page.core st) = data →
  wordLookup (Page.core st) = buildLookup data ∅ →
  (∀ r, r ∈ filteredWords (Page.core st) → r ∈ data) →
  words (Page.core (Page.handle i st)) = data ∧
  wordLookup (Page.core (Page.handle i st)) = buildLookup data ∅ ∧
  (∀ r, r ∈ filteredWords (Page.core (Page.handle i st)) → r ∈ data).
Proof.
  intros Hw Hm Hf.
  assert (∀ st', words (Page.core st') = data →
                 ∀ r, r ∈ Page.baseWords st' → r ∈ data) as Hbase.
  { intros st' Hw' r Hr. rewrite <- Hw'.
    eapply elem_of_sublist; [done|apply baseWords_sublist]. }
  assert (∀ term st', words (Page.core st') = data →
            wordLookup (Page.core st') = buildLookup data ∅ →
            words (Page.core (Page.searchWords term st')) = data ∧
            wordLookup (Page.core (Page.searchWords term st')) = buildLookup data ∅ ∧
            (∀ r, r ∈ filteredWords (Page.core (Page.searchWords term st')) →
                  r ∈ data)) as Hsearch.
  { intros term st' Hw' Hm'. unfold Page.searchWords.
    destruct (Page.blank term); simpl; (split_and!; [done..|]).
    - by apply Hbase.
    - intros r [_ Hr]%list_elem_of_filter. by apply (Hbase st'). }
  destruct i as [value|value| | |wordText]; simpl.
  - by apply Hsearch.
  - unfold Page.onFilterChange, Page.filterWords.
    cbn [Page.searchBar Page.setFilter Page.setControls Page.core].
    destruct (negb (Page.blank (Page.searchBar st))).
    + apply Hsearch; by destruct (decide (value = "all")).
    + destruct (decide (value = "all")); simpl; (split_and!; [done..|]).
      * intros r Hr. by rewrite <- Hw.
      * intros r [_ Hr]%list_elem_of_filter. by rewrite <- Hw.
  - split_and!; [done..|]. intros r Hr. by rewrite <- Hw.
  - unfold Page.showLastClickedWords.
    destruct (length (Page.clickedWords st) =? 0)%nat; [done|].
    remember (omap (λ w, Page.find (λ r, bool_decide (word r = w))
                           (words (Page.core st))) (Page.clickedWords st))
      as fs eqn:Hfs.
    simpl. split_and!; [done..|]. intros r Hr. subst fs.
    apply list_elem_of_omap in Hr as (t & _ & Hfind).
    apply find_Some in Hfind as (i & Hi & _). rewrite <- Hw.
    by eapply list_elem_of_lookup_2.
  - unfold Page.onGridClick.
    destruct (wordLookup (Page.core st) !! wordText); done.
Qed.

Lemma page_run_keeps inputs st data :
  words (Page.core st) = data →
  wordLookup (Page.core st) = buildLookup data ∅ →
  (∀ r, r ∈ filteredWords (Page.core st) → r ∈ data) →
  words (Page.core (Page.run inputs st)) = data ∧
  wordLookup (Page.core (Page.run inputs st)) = buildLookup data ∅ ∧
  (∀ r, r ∈ filteredWords (Page.core (Page.run inputs st)) → r ∈ data).
Proof.
  revert st. induction inputs as [|i inputs IH]; intros st Hw Hm Hf; [done|].
  destruct (page_handle_keeps i st data Hw Hm Hf) as (Hw1 & Hm1 & Hf1).
  by apply (IH (Page.handle i st)).
Qed.

(** In every run of the word page after a load, every word button on show
    works: its text is a key of the lookup table, the record found has that
    text and belongs to the catalogue, and the click makes it the current
    word and puts its text at the front of the history.  Everything on show
    is a record of the catalogue. *)
Theorem page_buttons_resolve data app inputs :
  let st := Page.run inputs (Page.newState (loadWords (FetchArray data) app)) in
  (∀ r, r ∈ filteredWords (Page.core st) → r ∈ words (Page.core st)) ∧
  (∀ t, t ∈ Page.buttons st →
     ∃ r, wordLookup (Page.core st) !! t = Some r ∧
          word r = t ∧ r ∈ words (Page.core st) ∧
          Page.currentWord (Page.onGridClick t st) = Some r ∧
          head (Page.clickedWords (Page.onGridClick t st)) = Some t).
Proof.
  intros st. subst st.
  destruct (loadWords_array data app) as [Hw Hm].
  destruct (page_run_keeps inputs
              (Page.newState (loadWords (FetchArray data) app)) data)
    as (Hw' & Hm' & Hf').
  { exact Hw. }
  { exact Hm. }
  { simpl. intros r Hr. unfold loadWords in Hr.
    destruct data as [|r0 data]; simpl in Hr; [by apply elem_of_nil in Hr|done]. }
  set (st := Page.run inputs (Page.newState (loadWords (FetchArray data) app)))
    in *.
  split; [intros r Hr; rewrite Hw'; by apply Hf'|].
  intros t Ht. unfold Page.buttons in Ht.
  apply list_elem_of_fmap in Ht as (r0 & -> & [Hne Hr0]%list_elem_of_filter).
  apply Hf' in Hr0.
  assert (∃ r, wordLookup (Page.core st) !! word r0 = Some r ∧
               word r = word r0 ∧ r ∈ data) as (r & Hlook & Hword & Hr).
  { rewrite Hm', buildLookup_lookup, decide_False by done.
    destruct (last (filter (λ r, word r = word r0) data)) as [r|] eqn:Hlast.
    - exists r. split; [done|].
      apply last_Some_elem_of, list_elem_of_filter in Hlast as [? ?]. done.
    - apply last_None in Hlast.
      assert (r0 ∈ filter (λ r, word r = word r0) data) as Hin
        by by apply list_elem_of_filter.
      rewrite Hlast in Hin. by apply elem_of_nil in Hin. }
  exists r. rewrite Hw'. split_and!; [done..| |].
  - unfold Page.onGridClick. by rewrite Hlook.
  - unfold Page.onGridClick. rewrite Hlook. simpl. by rewrite Hword.
Qed.

(** ** Voices, controls and a game without words *)

Lemma prefix_app_l a b t :
  String.prefix (a +:+ b) t = true → String.prefix a t = true.
Proof.
  revert t. induction a as [|c a IH]; intros t Hp; [by destruct t|].
  rewrite append_cons in Hp. destruct t as [|c' t]; [done|]. simpl in *.
  destruct (ascii_dec c c'); [by apply IH|done].
Qed.

Lemma includes_true sub s :
  Page.includes sub s = true ↔ ∃ i, occursAt sub i s.
Proof.
  unfold Page.includes. destruct (Js.indexOf sub s) as [i|] eqn:Hi.
  - split; [|done]. intros _. exists i. by apply indexOf_Some in Hi as [? _].
  - split; [done|]. intros [i Ho]. by destruct (indexOf_None _ _ Hi i).
Qed.

Lemma includes_app_l a b s :
  Page.includes (a +:+ b) s = true → Page.includes a s = true.
Proof.
  rewrite !includes_true. intros [i [Hi Hp]]. exists i. split; [done|].
  by eapply prefix_app_l.
Qed.

(** The longer codes [getVoice] tries first add nothing: a voice passes the
    test exactly when its language tag contains "fr", or "en". *)
Lemma speaks_code language v :
  Page.speaks language v =
  Page.includes (if decide (language = "french") then "fr" else "en")
                (Page.lang v).
Proof.
  unfold Page.speaks. case_decide.
  - destruct (Page.includes "fr-CA" (Page.lang v)) eqn:H1.
    { by rewrite (includes_app_l "fr" "-CA" _ H1). }
    destruct (Page.includes "fr-FR" (Page.lang v)) eqn:H2; [|done].
    by rewrite (includes_app_l "fr" "-FR" _ H2).
  - destruct (Page.includes "en-CA" (Page.lang v)) eqn:H1.
    { by rewrite (includes_app_l "en" "-CA" _ H1). }
    destruct (Page.includes "en-US" (Page.lang v)) eqn:H2; [|done].
    by rewrite (includes_app_l "en" "-US" _ H2).
Qed.

(** [getVoice] returns no voice exactly when there is none; otherwise it
    returns a voice of the list: the first one whose language tag contains
    "fr" (for French) or "en" (for any other language), and the very first
    voice when no tag does. *)
Theorem getVoice_choice language voices :
  let code := if decide (language = "french") then "fr" else "en" in
  (Page.getVoice language voices = None ↔ voices = []) ∧
  (∀ v, Page.getVoice language voices = Some v → v ∈ voices) ∧
  (∀ v, Page.getVoice language voices = Some v →
     (∃ i, voices !! i = Some v ∧
           Page.includes code (Page.lang v) = true ∧
           ∀ j v', (j < i)%nat → voices !! j = Some v' →
                   Page.includes code (Page.lang v') = false) ∨
     (head voices = Some v ∧
      ∀ v', v' ∈ voices → Page.includes code (Page.lang v') = false)).
Proof.
  intros code. subst code. unfold Page.getVoice.
  destruct voices as [|v0 voices]; [done|].
  change (length (v0 :: voices) =? 0)%nat with false. cbv iota.
  destruct (Page.find (Page.speaks language) (v0 :: voices)) as [v|] eqn:Hf.
  - apply find_Some in Hf as (i & Hi & Hp & Hmin).
    split_and!; [done| |].
    + intros v' [= <-]. by eapply list_elem_of_lookup_2.
    + intros v' [= <-]. left. exists i. split; [done|].
      rewrite speaks_code in Hp. split; [done|].
      intros j v' Hj Hv'. rewrite <- speaks_code. by apply (Hmin j).
  - pose proof (find_None _ _ Hf) as Hnone. split_and!; [done| |].
    + intros v [= <-]. apply list_elem_of_here.
    + intros v [= <-]. right. split; [done|].
      intros v' Hv'. rewrite <- speaks_code. by apply Hnone.
Qed.

(** Which handlers keep the category control and [currentFilter] in step:
    [showAllWords] and [onFilterChange] set both to the same value, and
    [onSearchInput] leaves both alone; [showLastClickedWords] sets the
    control to "all" and leaves [currentFilter] alone, so that a search
    with an empty term right after it still shows just the words of the old
    category. *)
Theorem filter_control_in_step st :
  Page.filterSelect (Page.showAllWords st) = "all" ∧
  Page.currentFilter (Page.showAllWords st) = "all" ∧
  (∀ c, Page.filterSelect (Page.onFilterChange c st) = c ∧
        Page.currentFilter (Page.onFilterChange c st) = c) ∧
  (∀ term, Page.filterSelect (Page.onSearchInput term st) = Page.filterSelect st ∧
           Page.currentFilter (Page.onSearchInput term st) = Page.currentFilter st) ∧
  (Page.clickedWords st ≠ [] →
   Page.filterSelect (Page.showLastClickedWords st) = "all" ∧
   Page.currentFilter (Page.showLastClickedWords st) = Page.currentFilter st ∧
   filteredWords (Page.core (Page.onSearchInput EmptyString
                                (Page.showLastClickedWords st))) =
     Page.baseWords st).
Proof.
  split_and!; [done|done| | |].
  - intros c. unfold Page.onFilterChange, Page.filterWords, Page.searchWords.
    cbn [Page.searchBar Page.setFilter Page.setControls].
    destruct (negb (Page.blank (Page.searchBar st)));
      [destruct (Page.blank (Page.searchBar st))|];
      destruct (decide (c = "all")); done.
  - intros term. unfold Page.onSearchInput, Page.searchWords.
    by destruct (Page.blank term).
  - intros Hne. unfold Page.showLastClickedWords.
    destruct (Page.clickedWords st) as [|t0 clicked] eqn:Hcl; [done|].
    change (length (t0 :: clicked) =? 0)%nat with false. cbv iota.
    remember (omap (λ w, Page.find (λ r, bool_decide (word r = w))
                           (words (Page.core st))) (t0 :: clicked)) as fs eqn:Hfs.
    done.
Qed.

Lemma filter_control_in_step_witness :
  let st :=
    Page.onWordButtonSelected (simpleWord "cat")
      (Page.onFilterChange "digraph"
         (Page.newState
            (loadWords (FetchArray [simpleWord "dog"; simpleWord "cat"])
               (newApp [])))) in
  Page.filterSelect (Page.showLastClickedWords st) = "all" ∧
  Page.currentFilter (Page.showLastClickedWords st) = "digraph" ∧
  filteredWords (Page.core (Page.onSearchInput EmptyString
                               (Page.showLastClickedWords st))) = [].
Proof.
  intros st.
  destruct (filter_control_in_step st) as (_ & _ & _ & _ & H).
  destruct H as (H1 & H2 & H3); [discriminate|].
  split; [exact H1|]. split; [exact H2|exact H3].
Defined.

Lemma selectGameWords_no_words ws g :
  filter isEasy ws = [] → filter isHard ws = [] →
  selectGameWords ws g = ([], g).
Proof. intros He Hh. unfold selectGameWords. by rewrite He, Hh. Qed.

(** Starting a game on a catalogue without easy and without hard words
    (an empty catalogue after a failed load, for one): the modal opens, the
    game has no words, and the first round throws a [TypeError] before any
    countdown is started; nothing is shown. *)
Theorem startWordGame_no_words fuel app :
  gameState app = None →
  filter isEasy (words app) = [] →
  filter isHard (words app) = [] →
  ∃ app' gs,
    startWordGame fuel app = Raised TypeError app' ∧
    gameState app' = Some gs ∧
    gameWords gs = [] ∧ currentWord gs = None ∧ timer gs = None ∧
    modalOpen app' = true ∧
    intervals app' = intervals app ∧
    timeouts app' = timeouts app ∧
    log app' = log app.
Proof.
  intros Hgs He Hh. unfold startWordGame. rewrite Hgs.
  rewrite bool_decide_eq_false_2 by naive_solver. cbn [andb].
  unfold initializeGame. rewrite (selectGameWords_no_words _ _ He Hh).
  eexists _, _. split; [reflexivity|]. done.
Qed.

Lemma startWordGame_no_words_witness :
  ∃ app',
    startWordGame 0 (loadWords FetchFailed (newApp [])) = Raised TypeError app' ∧
    modalOpen app' = true ∧ intervals app' = [].
Proof.
  destruct (startWordGame_no_words 0 (loadWords FetchFailed (newApp []))
              eq_refl eq_refl eq_refl)
    as (app' & gs & Hr & _ & _ & _ & _ & Hm & Hi & _).
  exists app'. split; [exact Hr|]. split; [exact Hm|exact Hi].
Defined.
